(** * A local mirror of iCalendar feeds: model and verified properties

    Shallow embedding of [calendar.go] (package [calendar]): the source
    registry, the per-source event store, the sync engine, the time
    resolver and the range query.

    Conventions.
    - Go strings are byte strings; they are [string]s here, one [ascii] per
      byte.
    - Document bytes (feed bodies, stored records, the registry file) are
      never inspected by the package: they are only handed to the iCalendar
      and JSON codecs.  Their type is a parameter [Bytes].
    - The libraries the package calls (go-ical, encoding/json, the host's
      time-zone database, net/http) are capabilities, gathered in the classes
      [ical.Codec], [Registry] and [time.Zoneinfo], and in the [net] argument
      of the sync functions.
    - The file system is explicit state ([FS]), threaded through every
      operation. *)

From Stdlib Require Import ZArith Lia Ascii String Sorting.Sorted Sorting.Permutation.
From stdpp Require Import gmap strings list fin_maps sorting.

Open Scope Z_scope.

(** ** Results of fallible operations *)

(** The error kinds the package produces (it builds them with [fmt.Errorf];
    the constructor records which message was built). *)
Inductive FetchCause :=
| Transport                 (* "fetching calendar: %w": http.Get failed *)
| HTTPStatus (code : Z).    (* "fetching calendar: HTTP %d" *)

Inductive Error :=
| IOError                           (* an os or encoding/json error, returned as is *)
| DuplicateNameError (name : string) (* "calendar %q already exists" *)
| NotFoundError (name : string)      (* "calendar %q not found", "event %q not found" *)
| NoSourcesError                     (* "no calendars configured, use 'add' to add one" *)
| FetchError (cause : FetchCause)
| ParseError                         (* "parsing calendar: %w" *)
| NoEventsError.                     (* "no events in file" *)

Inductive Result (A : Type) :=
| Ok (a : A)
| Err (e : Error).
Arguments Ok {A} a.
Arguments Err {A} e.

(** ** package time *)

Module time.

(** A [*time.Location]: UTC, the process's local zone, or a zone of the
    time-zone database. *)
Inductive Location :=
| UTC
| Local
| Zone (name : string).

(** The host's time-zone database. [LoadLocation] resolves an identifier;
    [wall_to_abs l w] is the absolute second at which the wall clock of [l]
    shows second [w]. *)
Class Zoneinfo := {
  LoadLocation : string -> option Location;
  wall_to_abs : Location -> Z -> Z
}.

(** A [time.Time] without monotonic reading (parsed times carry none, and
    [Before]/[After] use the monotonic reading only when both sides have
    one): seconds since January 1, year 1 00:00:00 UTC, nanoseconds within
    the second, and the location used for display. *)
Record Time := mkTime { sec : Z; nsec : Z; loc : Location }.

(** [time.Time{}] *)
Definition zero : Time := mkTime 0 0 UTC.

Definition IsZero (t : Time) : bool :=
  (sec t =? 0) && (nsec t =? 0).

Definition Before (t u : Time) : bool :=
  (sec t <? sec u) || ((sec t =? sec u) && (nsec t <? nsec u)).

Definition After (t u : Time) : bool :=
  (sec t >? sec u) || ((sec t =? sec u) && (nsec t >? nsec u)).

Definition unixToInternal : Z := 62135596800.

Definition Unix (t : Time) : Z := sec t - unixToInternal.

Definition isLeap (year : Z) : bool :=
  (year mod 4 =? 0) && (negb (year mod 100 =? 0) || (year mod 400 =? 0)).

Definition daysBefore (month : Z) : Z :=
  match month with
  | 1 => 0 | 2 => 31 | 3 => 59 | 4 => 90 | 5 => 120 | 6 => 151
  | 7 => 181 | 8 => 212 | 9 => 243 | 10 => 273 | 11 => 304 | 12 => 334
  | _ => 365
  end.

Definition daysIn (month year : Z) : Z :=
  if (month =? 2) && isLeap year then 29
  else daysBefore (month + 1) - daysBefore month.

(** Days from January 1, year 1 to the given date. *)
Definition daysSinceEpoch (year month day : Z) : Z :=
  let y := year - 1 in
  365 * y + y / 4 - y / 100 + y / 400
  + daysBefore month
  + (if isLeap year && (3 <=? month) then 1 else 0)
  + (day - 1).

(** [time.Date] on fields that are in range (the parsers below check the
    ranges before they call it). *)
Definition Date `{Zoneinfo} (year month day hour min sec : Z) (l : Location) : Time :=
  let wall := daysSinceEpoch year month day * 86400 + hour * 3600 + min * 60 + sec in
  mkTime (match l with UTC => wall | _ => wall_to_abs l wall end) 0 l.

Definition digit (c : ascii) : option Z :=
  let n := Z.of_nat (nat_of_ascii c) in
  if (48 <=? n) && (n <=? 57) then Some (n - 48) else None.

Fixpoint digits (acc : Z) (cs : list ascii) : option Z :=
  match cs with
  | [] => Some acc
  | c :: cs' =>
      match digit c with
      | Some d => digits (acc * 10 + d) cs'
      | None => None
      end
  end.

(** [time.Parse("20060102", value)]: four digits of year, two of month, two
    of day, nothing else; month and day are range-checked; the result is in
    UTC. *)
Definition Parse_20060102 `{Zoneinfo} (value : string) : option Time :=
  match list_ascii_of_string value with
  | [y1; y2; y3; y4; m1; m2; d1; d2] =>
      match digits 0 [y1; y2; y3; y4], digits 0 [m1; m2], digits 0 [d1; d2] with
      | Some year, Some month, Some day =>
          if (1 <=? month) && (month <=? 12) && (1 <=? day) && (day <=? daysIn month year)
          then Some (Date year month day 0 0 0 UTC)
          else None
      | _, _, _ => None
      end
  | _ => None
  end.

(** [time.ParseInLocation("20060102T150405", value, l)] *)
Definition ParseInLocation_20060102T150405 `{Zoneinfo} (value : string) (l : Location)
  : option Time :=
  match list_ascii_of_string value with
  | [y1; y2; y3; y4; m1; m2; d1; d2; t; h1; h2; i1; i2; s1; s2] =>
      match digits 0 [y1; y2; y3; y4], digits 0 [m1; m2], digits 0 [d1; d2],
            digits 0 [h1; h2], digits 0 [i1; i2], digits 0 [s1; s2] with
      | Some year, Some month, Some day, Some hour, Some min, Some sec =>
          if Ascii.eqb t "T"
             && (1 <=? month) && (month <=? 12) && (1 <=? day) && (day <=? daysIn month year)
             && (hour <? 24) && (min <? 60) && (sec <? 60)
          then Some (Date year month day hour min sec l)
          else None
      | _, _, _, _, _, _ => None
      end
  | _ => None
  end.

End time.

(** ** Filenames of stored records *)

(** The table of [strings.NewReplacer] in [sanitizeFilename]: every old
    string is a single byte, so the replacer maps byte by byte. *)
Definition backslash : ascii := ascii_of_nat 92.
Definition dquote : ascii := ascii_of_nat 34.

Definition replacement (c : ascii) : string :=
  if Ascii.eqb c "/" then "_"
  else if Ascii.eqb c backslash then "_"
  else if Ascii.eqb c ":" then "_"
  else if Ascii.eqb c "*" then "_"
  else if Ascii.eqb c "?" then "_"
  else if Ascii.eqb c dquote then "_"
  else if Ascii.eqb c "<" then "_"
  else if Ascii.eqb c ">" then "_"
  else if Ascii.eqb c "|" then "_"
  else if Ascii.eqb c "@" then "_at_"
  else String c EmptyString.

Fixpoint sanitizeFilename (s : string) : string :=
  match s with
  | EmptyString => EmptyString
  | String c r => replacement c +:+ sanitizeFilename r
  end.

(** ** package ical (github.com/emersion/go-ical): the document abstraction *)

Module ical.

(** [ical.Prop]: one property line, with its parameters. *)
Record Property := mkProperty {
  PName : string;
  Params : gmap string (list string);
  Value : string
}.

(** [ical.Component]; [Props] maps a property name to the properties of
    that name, in document order. *)
#[warnings="-register-all"]
Inductive Component :=
| mkComponent (name : string) (props : gmap string (list Property))
              (children : list Component).

Definition Name (c : Component) : string :=
  match c with mkComponent name _ _ => name end.
Definition Props (c : Component) : gmap string (list Property) :=
  match c with mkComponent _ props _ => props end.
Definition Children (c : Component) : list Component :=
  match c with mkComponent _ _ children => children end.

Definition CompCalendar : string := "VCALENDAR".
Definition CompEvent : string := "VEVENT".
Definition PropUID : string := "UID".
Definition PropSummary : string := "SUMMARY".
Definition PropDescription : string := "DESCRIPTION".
Definition PropLocation : string := "LOCATION".
Definition PropDateTimeStart : string := "DTSTART".
Definition PropDateTimeEnd : string := "DTEND".
Definition PropVersion : string := "VERSION".
Definition PropProductID : string := "PRODID".

(** [Calendar.Events]: the children that are events, in order. *)
Definition Events (cal : Component) : list Component :=
  List.filter (fun child => String.eqb (Name child) CompEvent) (Children cal).

(** [Props.Get]: the first property of that name, if any (the names used
    by the package are already upper case). *)
Definition Props_Get (props : gmap string (list Property)) (name : string)
  : option Property :=
  match props !! name with
  | Some (p :: _) => Some p
  | _ => None
  end.

(** [Props.SetText] on a text that needs no escaping. *)
Definition Props_SetText (name text : string) (props : gmap string (list Property))
  : gmap string (list Property) :=
  <[name := [mkProperty name ∅ text]]> props.

(** [ical.NewCalendar] *)
Definition NewCalendar : Component := mkComponent CompCalendar ∅ [].

(** What the package asks of the library: decoding and encoding of whole
    documents, and decoding of one property value as text or as a time.
    [None] is the library's error. *)
Class Codec (Bytes : Type) := {
  Decode : Bytes -> option Component;
  Encode : Component -> option Bytes;
  Text : Property -> option string;
  DateTime : Property -> time.Location -> option time.Time
}.

(** [Props.Text]: the text of the first property of that name; the empty
    string when there is none. *)
Definition Props_Text `{Codec Bytes} (props : gmap string (list Property)) (name : string)
  : option string :=
  match Props_Get props name with
  | Some p => Text p
  | None => Some EmptyString
  end.

End ical.

(** ** package calendar: data *)

Record Source := mkSource { Name : string; URL : string }.

Record Event := mkEvent {
  UID : string;
  Summary : string;
  Description : string;
  Location : string;
  Start : time.Time;
  End_ : time.Time;
  Calendar : string;
  AllDay : bool
}.

(** [encoding/json] on the registry, a [[]Source]. *)
Class Registry (Bytes : Type) := {
  json_MarshalIndent : list Source -> Bytes;
  json_Unmarshal : Bytes -> option (list Source)
}.

(** The answer of [http.Get]. *)
Inductive HttpResult (Bytes : Type) :=
| TransportFailure
| Response (StatusCode : Z) (Body : Bytes).
Arguments TransportFailure {Bytes}.
Arguments Response {Bytes} StatusCode Body.

Definition StatusOK : Z := 200.

(** What the package prints while it syncs. *)
Inductive Line :=
| LSyncing (name : string)     (* "syncing %s..." *)
| LError (e : Error)           (* "  error: %v" *)
| LSynced (count : nat).       (* "  %d events synced" *)

(** ** The file system under the configuration directory *)

Inductive File (Bytes : Type) :=
| Missing
| Unreadable
| Regular (data : Bytes).
Arguments Missing {Bytes}.
Arguments Unreadable {Bytes}.
Arguments Regular {Bytes} data.

(** [sources_file] is [Config.SourcesFile()]; [calendar_dirs] maps a source
    name [n] to the directory [Config.CalendarDir(n)], that is
    [filepath.Join(EventsDir(), n)], when it exists, a directory being a map
    from file names to contents.

    Scope. The map is keyed by the name as given. That is exact for names
    that are a single path component ([simpleName] below): their directories
    are distinct children of the events directory. A name with a separator,
    or the names [.] and [..], stands for a directory that lies inside
    another source's directory, is the events directory or lies above it;
    how such directories overlap is not modelled, and the properties that
    relate two directories, or a directory and the registry file, are stated
    for single-component names. Faults of the host (permissions, a full
    disk) are not modelled either; the refusals that depend on the name
    alone are ([refusedPath]). *)
Record FS (Bytes : Type) := mkFS {
  sources_file : File Bytes;
  calendar_dirs : gmap string (gmap string Bytes)
}.
Arguments mkFS {Bytes} _ _.
Arguments sources_file {Bytes} _.
Arguments calendar_dirs {Bytes} _.

Definition name_le (a b : string) : Prop := String.leb a b = true.

#[global] Instance name_le_dec a b : Decision (name_le a b).
Proof. unfold name_le. apply _. Defined.

(** What the host refuses in a path, whatever the state of the disk: a NUL
    byte, and a component, the bytes between two separators, of more than
    [NAME_MAX] bytes. *)
Definition NAME_MAX : nat := 255.

Fixpoint hasNUL (path : string) : bool :=
  match path with
  | EmptyString => false
  | String c rest => Ascii.eqb c Ascii.zero || hasNUL rest
  end.

(** [run] is the length of the component read so far. *)
Fixpoint longComponent (run : nat) (path : string) : bool :=
  match path with
  | EmptyString => (NAME_MAX <? run)%nat
  | String c rest =>
      if Ascii.eqb c "/" then (NAME_MAX <? run)%nat || longComponent 0 rest
      else longComponent (S run) rest
  end.

Definition refusedPath (path : string) : bool :=
  hasNUL path || longComponent 0 path.

(** A name that is a single path component the host accepts: not empty,
    neither [.] nor [..], without separator. *)
Fixpoint hasSeparator (name : string) : bool :=
  match name with
  | EmptyString => false
  | String c rest => Ascii.eqb c "/" || hasSeparator rest
  end.

Definition simpleName (name : string) : bool :=
  negb (String.eqb name EmptyString) && negb (String.eqb name ".")
  && negb (String.eqb name "..") && negb (hasSeparator name)
  && negb (refusedPath name).

Section OS.
Context {Bytes : Type}.

(** [os.MkdirAll(CalendarDir(name))]: nothing to do when the directory
    exists; otherwise it is created, unless the host refuses the path. *)
Definition os_MkdirAll (fs : FS Bytes) (name : string) : Result (FS Bytes) :=
  match calendar_dirs fs !! name with
  | Some _ => Ok fs
  | None =>
      if refusedPath name then Err IOError
      else Ok (mkFS (sources_file fs) (<[name := ∅]> (calendar_dirs fs)))
  end.

(** [os.ReadDir]: the entry names, sorted by file name. *)
Definition os_ReadDir (fs : FS Bytes) (dir : string) : Result (list string) :=
  match calendar_dirs fs !! dir with
  | Some d => Ok (merge_sort name_le (map fst (map_to_list d)))
  | None => Err IOError
  end.

(** [os.ReadFile(filepath.Join(dir, name))] *)
Definition os_ReadFile (fs : FS Bytes) (dir name : string) : Result Bytes :=
  match calendar_dirs fs !! dir with
  | Some d => match d !! name with
              | Some data => Ok data
              | None => Err IOError
              end
  | None => Err IOError
  end.

(** [os.Remove(filepath.Join(dir, name))] on an entry that [os.ReadDir]
    listed, a file of the directory. The package drops its error, which only
    a fault of the host raises for such an entry. *)
Definition os_Remove (fs : FS Bytes) (dir name : string) : FS Bytes :=
  match calendar_dirs fs !! dir with
  | Some d => mkFS (sources_file fs) (<[dir := delete name d]> (calendar_dirs fs))
  | None => fs
  end.

(** [os.WriteFile(filepath.Join(dir, name), data, 0644)]: it fails when the
    directory is missing and when the host refuses the file name. *)
Definition os_WriteFile (fs : FS Bytes) (dir name : string) (data : Bytes)
  : Result (FS Bytes) :=
  match calendar_dirs fs !! dir with
  | Some d =>
      if refusedPath name then Err IOError
      else Ok (mkFS (sources_file fs) (<[dir := <[name := data]> d]> (calendar_dirs fs)))
  | None => Err IOError
  end.

(** [os.RemoveAll(CalendarDir(name))]: the directory of that name goes, with
    its files (see the scope of [FS] for names of several components). *)
Definition os_RemoveAll (fs : FS Bytes) (name : string) : FS Bytes :=
  mkFS (sources_file fs) (delete name (calendar_dirs fs)).

End OS.

(** [strings.HasSuffix] *)
Definition HasSuffix (s suffix : string) : bool :=
  let n := String.length s in
  let m := String.length suffix in
  (m <=? n)%nat && String.eqb (substring (n - m) m s) suffix.

(** ** sort.Slice *)

(** [sort.Slice] returns a permutation of its argument ordered by [less].
    On slices of at most twelve elements the library runs the insertion sort
    below: element [i] moves left while it is less than its left neighbour.
    On longer slices its result can differ in the order of elements that
    [less] does not separate, and in nothing else; the properties proved of
    [ListEvents] do not depend on that order.  [insertLeft] works on the
    sorted prefix in reverse, its last element first. *)
Section Sort.
Context {A : Type} (less : A -> A -> bool).

Fixpoint insertLeft (x : A) (rprefix : list A) : list A :=
  match rprefix with
  | [] => [x]
  | y :: r => if less x y then y :: insertLeft x r else x :: rprefix
  end.

Definition sort_Slice (data : list A) : list A :=
  rev (fold_left (fun rprefix x => insertLeft x rprefix) data []).

End Sort.

(** ** package calendar: operations *)

Section Package.
Context {Bytes : Type} {codec : ical.Codec Bytes} {registry : Registry Bytes}
        {zoneinfo : time.Zoneinfo}.

(** *** Source management *)

Definition LoadSources (fs : FS Bytes) : Result (list Source) :=
  match sources_file fs with
  | Missing => Ok []
  | Unreadable => Err IOError
  | Regular data =>
      match json_Unmarshal data with
      | Some sources => Ok sources
      | None => Err IOError
      end
  end.

(** [json.MarshalIndent] has no error on a [[]Source]; the write of the
    registry file, into the configuration directory the manager created,
    fails only by a fault of the host. *)
Definition SaveSources (fs : FS Bytes) (sources : list Source) : FS Bytes * option Error :=
  (mkFS (Regular (json_MarshalIndent sources)) (calendar_dirs fs), None).

(** The loop of [AddSource]: is some source named [name]? *)
Fixpoint nameExists (name : string) (sources : list Source) : bool :=
  match sources with
  | [] => false
  | s :: rest => if String.eqb (Name s) name then true else nameExists name rest
  end.

Definition AddSource (fs : FS Bytes) (name url : string) : FS Bytes * option Error :=
  match LoadSources fs with
  | Err e => (fs, Some e)
  | Ok sources =>
      if nameExists name sources
      then (fs, Some (DuplicateNameError name))
      else SaveSources fs (sources ++ [mkSource name url])
  end.

(** The loop of [RemoveSource]: the sources kept, and whether one was
    dropped. *)
Fixpoint removeNamed (name : string) (sources : list Source) : list Source * bool :=
  match sources with
  | [] => ([], false)
  | s :: rest =>
      let '(filtered, found) := removeNamed name rest in
      if String.eqb (Name s) name then (filtered, true) else (s :: filtered, found)
  end.

Definition RemoveSource (fs : FS Bytes) (name : string) : FS Bytes * option Error :=
  match LoadSources fs with
  | Err e => (fs, Some e)
  | Ok sources =>
      let '(filtered, found) := removeNamed name sources in
      if negb found
      then (fs, Some (NotFoundError name))
      else SaveSources (os_RemoveAll fs name) filtered
  end.

(** *** Sync *)

(** The single-event document written for [event]. *)
Definition eventCal (event : ical.Component) : ical.Component :=
  ical.mkComponent ical.CompCalendar
    (ical.Props_SetText ical.PropProductID "-//arjungandhi/calendar//EN"
       (ical.Props_SetText ical.PropVersion "2.0" (ical.Props ical.NewCalendar)))
    (ical.Children ical.NewCalendar ++ [event]).

(** One iteration of the writing loop of [syncSource], on the file system
    and the count of events written so far. *)
Definition writeEvent (dir : string) (st : FS Bytes * nat) (event : ical.Component)
  : FS Bytes * nat :=
  let '(fs, count) := st in
  match ical.Props_Text (ical.Props event) ical.PropUID with
  | None => st
  | Some uid =>
      if String.eqb uid EmptyString then st
      else
        match ical.Encode (eventCal event) with
        | None => st
        | Some buf =>
            let filename := sanitizeFilename uid +:+ ".ics" in
            match os_WriteFile fs dir filename buf with
            | Err _ => st
            | Ok fs' => (fs', S count)
            end
        end
  end.

(** The clearing loop of [syncSource]; a failing [os.ReadDir] yields no
    entries. *)
Definition clearDir (fs : FS Bytes) (dir : string) : FS Bytes :=
  let entries := match os_ReadDir fs dir with Ok l => l | Err _ => [] end in
  fold_left (fun fs' e => os_Remove fs' dir e) entries fs.

(** [syncSource], given the answer [resp] of [http.Get(s.URL)]. It returns
    the file system, the line printed and the error. *)
Definition syncSource (resp : HttpResult Bytes) (fs : FS Bytes) (s : Source)
  : FS Bytes * list Line * option Error :=
  match resp with
  | TransportFailure => (fs, [], Some (FetchError Transport))
  | Response StatusCode Body =>
      if negb (StatusCode =? StatusOK)
      then (fs, [], Some (FetchError (HTTPStatus StatusCode)))
      else
        match ical.Decode Body with
        | None => (fs, [], Some ParseError)
        | Some cal =>
            let dir := Name s in
            match os_MkdirAll fs dir with
            | Err e => (fs, [], Some e)
            | Ok fs1 =>
                let fs2 := clearDir fs1 dir in
                let '(fs3, count) := fold_left (writeEvent dir) (ical.Events cal) (fs2, 0%nat) in
                (fs3, [LSynced count], None)
            end
        end
  end.

(** One iteration of the loop of [SyncAll]; [net] is the network, the answer
    [http.Get] gives for each URL. *)
Definition syncStep (net : string -> HttpResult Bytes) (st : FS Bytes * list Line) (s : Source)
  : FS Bytes * list Line :=
  let '(fs, out) := st in
  let '(fs', printed, err) := syncSource (net (URL s)) fs s in
  (fs', out ++ [LSyncing (Name s)] ++ printed
          ++ match err with Some e => [LError e] | None => [] end).

Definition SyncAll (net : string -> HttpResult Bytes) (fs : FS Bytes)
  : FS Bytes * list Line * option Error :=
  match LoadSources fs with
  | Err e => (fs, [], Some e)
  | Ok sources =>
      if (length sources =? 0)%nat
      then (fs, [], Some NoSourcesError)
      else
        let '(fs', out) := fold_left (syncStep net) sources (fs, []) in
        (fs', out, None)
  end.

(** *** Event retrieval *)

(** The first block of [parseEventTime]: does the [VALUE] parameter list
    [DATE]? *)
Definition isAllDay (p : ical.Property) : bool :=
  match ical.Params p !! "VALUE" with
  | Some values => existsb (fun v => String.eqb v "DATE") values
  | None => false
  end.

(** The second block: the zone named by the first [TZID] parameter when
    the host knows it, the local zone otherwise. *)
Definition tzidLocation (p : ical.Property) : time.Location :=
  match ical.Params p !! "TZID" with
  | Some (tzid :: _) =>
      match time.LoadLocation tzid with
      | Some l => l
      | None => time.Local
      end
  | _ => time.Local
  end.

Definition parseEventTime (event : ical.Component) (prop : string) : time.Time * bool :=
  match ical.Props_Get (ical.Props event) prop with
  | None => (time.zero, false)
  | Some p =>
      let allDay := isAllDay p in
      let loc := tzidLocation p in
      if allDay then
        match time.Parse_20060102 (ical.Value p) with
        | None => (time.zero, false)
        | Some t => (t, true)
        end
      else
        match ical.DateTime p loc with
        | None =>
            match time.Parse_20060102 (ical.Value p) with
            | None => (time.zero, false)
            | Some t => (t, true)
            end
        | Some t => (t, false)
        end
  end.

(** [s, _ := props.Text(name)]: the error is dropped, the text is then
    empty. *)
Definition textOrEmpty (props : gmap string (list ical.Property)) (name : string) : string :=
  match ical.Props_Text props name with
  | Some s => s
  | None => EmptyString
  end.

Definition readEvent (fs : FS Bytes) (dir name calName : string) : Result Event :=
  match os_ReadFile fs dir name with
  | Err e => Err e
  | Ok data =>
      match ical.Decode data with
      | None => Err ParseError
      | Some cal =>
          match ical.Events cal with
          | [] => Err NoEventsError
          | ie :: _ =>
              let '(start, allDay) := parseEventTime ie ical.PropDateTimeStart in
              let '(end_, _) := parseEventTime ie ical.PropDateTimeEnd in
              Ok (mkEvent (textOrEmpty (ical.Props ie) ical.PropUID)
                          (textOrEmpty (ical.Props ie) ical.PropSummary)
                          (textOrEmpty (ical.Props ie) ical.PropDescription)
                          (textOrEmpty (ical.Props ie) ical.PropLocation)
                          start end_ calName allDay)
          end
      end
  end.

(** One iteration of the loop of [loadCalendarEvents]. *)
Definition loadEntry (fs : FS Bytes) (calName : string) (events : list Event) (entry : string)
  : list Event :=
  if negb (HasSuffix entry ".ics") then events
  else
    match readEvent fs calName entry calName with
    | Err _ => events
    | Ok event => events ++ [event]
    end.

Definition loadCalendarEvents (fs : FS Bytes) (calName : string) : Result (list Event) :=
  match os_ReadDir fs calName with
  | Err e => Err e
  | Ok entries => Ok (fold_left (loadEntry fs calName) entries [])
  end.

(** One iteration of the collecting loop of [ListEvents]. *)
Definition collect (fs : FS Bytes) (events : list Event) (s : Source) : list Event :=
  match loadCalendarEvents fs (Name s) with
  | Err _ => events
  | Ok calEvents => events ++ calEvents
  end.

(** The test of the filtering loop of [ListEvents]: is [e] kept? *)
Definition inRange (from to : time.Time) (e : Event) : bool :=
  if negb (time.IsZero from) && time.Before (Start e) from then false
  else if negb (time.IsZero to) && time.After (Start e) to then false
  else true.

Definition ListEvents (fs : FS Bytes) (from to : time.Time) : Result (list Event) :=
  match LoadSources fs with
  | Err e => Err e
  | Ok sources =>
      let events := fold_left (collect fs) sources [] in
      let filtered := List.filter (inRange from to) events in
      Ok (sort_Slice (fun a b => time.Before (Start a) (Start b)) filtered)
  end.

End Package.

(** ** Definitions used to state the properties *)

(** Reading a file name back: every [_at_] becomes [@]. *)
Fixpoint unsanitize (s : string) : string :=
  match s with
  | String "_" (String "a" (String "t" (String "_" r))) => String "@" (unsanitize r)
  | String c r => String c (unsanitize r)
  | EmptyString => EmptyString
  end.

(** A uid without underscore and without any of the nine characters that
    [sanitizeFilename] turns into an underscore ([@] is allowed). *)
Definition plainByte (c : ascii) : bool :=
  negb (Ascii.eqb c "_")
  && (String.eqb (replacement c) (String c EmptyString) || Ascii.eqb c "@").

Fixpoint plainUID (s : string) : bool :=
  match s with
  | EmptyString => true
  | String c r => plainByte c && plainUID r
  end.

(** [instant_le t u]: the instant of [t] is not later than the instant of
    [u] (the location plays no part). *)
Definition instant_le (t u : time.Time) : Prop :=
  time.sec t < time.sec u \/ (time.sec t = time.sec u /\ time.nsec t <= time.nsec u).

(** [instant_lt t u]: the instant of [t] is strictly earlier than that of
    [u]. *)
Definition instant_lt (t u : time.Time) : Prop :=
  time.sec t < time.sec u \/ (time.sec t = time.sec u /\ time.nsec t < time.nsec u).

(** [storedEvent fs sources e]: some record of a configured source decodes
    to [e]. *)
Definition storedEvent {Bytes : Type} `{!ical.Codec Bytes} `{!time.Zoneinfo}
  (fs : FS Bytes) (sources : list Source) (e : Event) : Prop :=
  exists (s : Source) (d : gmap string Bytes) (entry : string),
    s ∈ sources /\ calendar_dirs fs !! Name s = Some d /\ is_Some (d !! entry)
    /\ HasSuffix entry ".ics" = true
    /\ readEvent fs (Name s) entry (Name s) = Ok e.

(** The events of one directory entry, of one source and of all sources, as
    the loops of [loadCalendarEvents] and [ListEvents] gather them. *)
Definition entryEvents {Bytes : Type} `{!ical.Codec Bytes} `{!time.Zoneinfo}
  (fs : FS Bytes) (calName entry : string) : list Event :=
  if negb (HasSuffix entry ".ics") then []
  else match readEvent fs calName entry calName with
       | Err _ => []
       | Ok event => [event]
       end.

Definition sourceEvents {Bytes : Type} `{!ical.Codec Bytes} `{!time.Zoneinfo}
  (fs : FS Bytes) (s : Source) : list Event :=
  match loadCalendarEvents fs (Name s) with
  | Err _ => []
  | Ok calEvents => calEvents
  end.

Definition allEvents {Bytes : Type} `{!ical.Codec Bytes} `{!time.Zoneinfo}
  (fs : FS Bytes) (sources : list Source) : list Event :=
  flat_map (sourceEvents fs) sources.

(** ** A reference host

    A small instance of the capabilities, on which the operations compute:
    documents are kept in decoded form, two zones without daylight saving
    are known, and the local zone is UTC. It is not the go-ical library: its
    encoder asks only that the document has a component, its [DateTime]
    reads only the local date-time form, in the location it is given, and
    its [Text] returns the value as it stands. The properties are proved for
    every codec; this one only runs them on examples. *)

Inductive Doc :=
| DocCalendar (cal : ical.Component)
| DocSources (sources : list Source)
| DocOther (raw : string).

Definition refZoneinfo : time.Zoneinfo :=
  {| time.LoadLocation := fun name =>
       if String.eqb name "UTC" then Some time.UTC
       else if String.eqb name "Asia/Tokyo" then Some (time.Zone "Asia/Tokyo")
       else if String.eqb name "Asia/Kolkata" then Some (time.Zone "Asia/Kolkata")
       else None;
     time.wall_to_abs := fun l w =>
       match l with
       | time.Zone "Asia/Tokyo" => w - 32400
       | time.Zone "Asia/Kolkata" => w - 19800
       | _ => w
       end |}.

Definition refCodec : ical.Codec Doc :=
  {| ical.Decode := fun d => match d with DocCalendar cal => Some cal | _ => None end;
     ical.Encode := fun cal =>
       match ical.Children cal with
       | [] => None
       | _ => Some (DocCalendar cal)
       end;
     ical.Text := fun p => Some (ical.Value p);
     ical.DateTime := fun p l =>
       @time.ParseInLocation_20060102T150405 refZoneinfo
         (ical.Value p) l |}.

Definition refRegistry : Registry Doc :=
  {| json_MarshalIndent := DocSources;
     json_Unmarshal := fun d => match d with DocSources l => Some l | _ => None end |}.

(** An event component with a uid, a summary and a start property. *)
Definition refEvent (uid summary : string) (dtstart : ical.Property) : ical.Component :=
  ical.mkComponent ical.CompEvent
    {[ ical.PropUID := [ical.mkProperty ical.PropUID ∅ uid];
       ical.PropSummary := [ical.mkProperty ical.PropSummary ∅ summary];
       ical.PropDateTimeStart := [dtstart] ]}
    [].

Definition refCalendar (events : list ical.Component) : ical.Component :=
  ical.mkComponent ical.CompCalendar ∅ events.

Definition dtstartDate (value : string) : ical.Property :=
  ical.mkProperty ical.PropDateTimeStart {[ "VALUE" := ["DATE"] ]} value.

Definition dtstartZoned (tzid value : string) : ical.Property :=
  ical.mkProperty ical.PropDateTimeStart {[ "TZID" := [tzid] ]} value.

Definition dtstartBare (value : string) : ical.Property :=
  ical.mkProperty ical.PropDateTimeStart ∅ value.

Definition standup : ical.Component :=
  refEvent "standup@example.com" "Standup" (dtstartZoned "Asia/Tokyo" "20240315T090000").
Definition holiday : ical.Component :=
  refEvent "holiday@example.com" "Holiday" (dtstartDate "20240315").
Definition review : ical.Component :=
  refEvent "review@example.com" "Review" (dtstartZoned "Asia/Kolkata" "20240401T100000").

(** A registry with two sources and a store with three records. *)
Definition refSources : list Source :=
  [mkSource "work" "https://example.com/work.ics";
   mkSource "home" "https://example.com/home.ics"].

Definition refFS : FS Doc :=
  mkFS (Regular (DocSources refSources))
    {[ "work" := {[ "standup_at_example.com.ics" := DocCalendar (refCalendar [standup]);
                    "review_at_example.com.ics" := DocCalendar (refCalendar [review]);
                    "notes.txt" := DocOther "not a record" ]};
       "home" := {[ "holiday_at_example.com.ics" := DocCalendar (refCalendar [holiday]) ]} ]}.

(** March 2024, and what the reference store lists for it and for no
    bounds at all. *)
Definition refFrom : time.Time :=
  Eval vm_compute in @time.Date refZoneinfo 2024 3 1 0 0 0 time.UTC.
Definition refTo : time.Time :=
  Eval vm_compute in @time.Date refZoneinfo 2024 3 31 23 59 59 time.UTC.

Definition listedOrNil (r : Result (list Event)) : list Event :=
  match r with Ok l => l | Err _ => [] end.

Definition refMarch : list Event :=
  Eval vm_compute in
    listedOrNil (@ListEvents Doc refCodec refRegistry refZoneinfo refFS refFrom refTo).
Definition refAll : list Event :=
  Eval vm_compute in
    listedOrNil (@ListEvents Doc refCodec refRegistry refZoneinfo refFS time.zero time.zero).


(** [feedHas cal u]: the feed [cal] has an event whose uid reads [u]. *)
Definition feedHas {Bytes : Type} `{!ical.Codec Bytes} (cal : ical.Component) (u : string)
  : Prop :=
  exists ev, ev ∈ ical.Events cal /\ ical.Props_Text (ical.Props ev) ical.PropUID = Some u.

(** [recordOf fs name u]: the directory of source [name] holds a record that
    decodes to an event with uid [u]. *)
Definition recordOf {Bytes : Type} `{!ical.Codec Bytes} `{!time.Zoneinfo}
  (fs : FS Bytes) (name u : string) : Prop :=
  exists (d : gmap string Bytes) (entry : string) (e : Event),
    calendar_dirs fs !! name = Some d /\ is_Some (d !! entry)
    /\ readEvent fs name entry name = Ok e /\ UID e = u.

(** The library's round trip: a document it encoded decodes to itself. *)
Definition roundTrip {Bytes : Type} `{!ical.Codec Bytes} : Prop :=
  forall cal buf, ical.Encode cal = Some buf -> ical.Decode buf = Some cal.

(** What a record written by [writeEvent] for the feed [cal] looks like. *)
Definition writtenFrom {Bytes : Type} `{!ical.Codec Bytes} (cal : ical.Component) (entry : string) (data : Bytes) : Prop :=
  exists ev uid,
    ev ∈ ical.Events cal
    /\ ical.Props_Text (ical.Props ev) ical.PropUID = Some uid
    /\ uid <> EmptyString
    /\ entry = sanitizeFilename uid +:+ ".ics"
    /\ ical.Encode (eventCal ev) = Some data.

(** Feeds and networks for the reference host. *)
Definition workSource : Source := mkSource "work" "https://example.com/work.ics".
Definition homeSource : Source := mkSource "home" "https://example.com/home.ics".

Definition feedBoth : Doc := DocCalendar (refCalendar [standup; review]).
Definition feedReviewOnly : Doc := DocCalendar (refCalendar [review]).

(** The work feed is down, the home feed answers. *)
Definition refNet (url : string) : HttpResult Doc :=
  if String.eqb url "https://example.com/home.ics"
  then Response 200 (DocCalendar (refCalendar [holiday]))
  else TransportFailure.




(** No registry file, no event directory. *)
Definition emptyFS : FS Doc := mkFS Missing ∅.

(** ** package calendar: lookup by uid *)

Section Lookup.
Context {Bytes : Type} {codec : ical.Codec Bytes} {registry : Registry Bytes}
        {zoneinfo : time.Zoneinfo}.

(** The inner loop of [GetEvent] over the entries of one directory. The raw
    document is read a second time, the error of that read being dropped:
    [None] stands for the empty string a failed read leaves. *)
Fixpoint findInEntries (fs : FS Bytes) (calName uid : string) (entries : list string)
  : option (Event * option Bytes) :=
  match entries with
  | [] => None
  | entry :: rest =>
      if negb (HasSuffix entry ".ics") then findInEntries fs calName uid rest
      else
        match readEvent fs calName entry calName with
        | Err _ => findInEntries fs calName uid rest
        | Ok event =>
            if String.eqb (UID event) uid
            then Some (event,
                       match os_ReadFile fs calName entry with
                       | Ok raw => Some raw
                       | Err _ => None
                       end)
            else findInEntries fs calName uid rest
        end
  end.

(** The outer loop of [GetEvent] over the sources; a directory that cannot
    be read has no entries. *)
Fixpoint findInSources (fs : FS Bytes) (uid : string) (sources : list Source)
  : option (Event * option Bytes) :=
  match sources with
  | [] => None
  | s :: rest =>
      let entries := match os_ReadDir fs (Name s) with Ok l => l | Err _ => [] end in
      match findInEntries fs (Name s) uid entries with
      | Some found => Some found
      | None => findInSources fs uid rest
      end
  end.

Definition GetEvent (fs : FS Bytes) (uid : string) : Result (Event * option Bytes) :=
  match LoadSources fs with
  | Err e => Err e
  | Ok sources =>
      match findInSources fs uid sources with
      | Some found => Ok found
      | None => Err (NotFoundError uid)
      end
  end.

End Lookup.

(** ** package main: the command line *)

(** The two errors of [parseOutputFlag]; both messages list the valid
    formats. *)
Inductive FlagError :=
| FormatRequired (valid : list string)                    (* "-o requires a format: %s" *)
| UnknownFormat (format : string) (valid : list string).  (* "unknown output format %q: use %s" *)

Inductive FlagResult :=
| FlagOk (format : string) (rest : list string)
| FlagErr (e : FlagError).

Section CommandLine.
Context {Bytes : Type} {registry : Registry Bytes}.
(** [strings.ToLower] *)
Variable ToLower : string -> string.

(** The search loop of [parseOutputFlag]: is [format] one of [valid]? *)
Fixpoint formatFound (format : string) (valid : list string) : bool :=
  match valid with
  | [] => false
  | v :: valid' => if String.eqb format v then true else formatFound format valid'
  end.

(** The loop of [parseOutputFlag] from index [i] on, [args] being what is
    left of the arguments there. *)
Fixpoint parseOutputFlag_from (valid : list string) (args : list string)
    (format : string) (rest : list string) : FlagResult :=
  match args with
  | [] => FlagOk format rest
  | arg :: args' =>
      if String.eqb arg "-o" then
        match args' with
        | [] => FlagErr (FormatRequired valid)
        | value :: args'' =>
            let format' := ToLower value in
            if negb (formatFound format' valid)
            then FlagErr (UnknownFormat format' valid)
            else parseOutputFlag_from valid args'' format' rest
        end
      else parseOutputFlag_from valid args' format (rest ++ [arg])
  end.

Definition parseOutputFlag (args valid : list string) : FlagResult :=
  parseOutputFlag_from valid args "table" [].

(** The loop shared by [calendarCompleter.Complete] and
    [validCalendarNames]. *)
Fixpoint completeNames (prefix : string) (sources : list Source) : list string :=
  match sources with
  | [] => []
  | s :: rest =>
      if String.eqb prefix EmptyString || String.prefix prefix (ToLower (Name s))
      then Name s :: completeNames prefix rest
      else completeNames prefix rest
  end.

(** [calendarCompleter.Complete], on a manager for [fs]. *)
Definition Complete (fs : FS Bytes) (args : list string) : list string :=
  match LoadSources fs with
  | Err _ => []
  | Ok sources =>
      let prefix := match args with
                    | arg :: _ => ToLower arg
                    | [] => EmptyString
                    end in
      completeNames prefix sources
  end.

(** [validCalendarNames], on a manager for [fs]. *)
Definition validCalendarNames (fs : FS Bytes) (toComplete : string) : list string :=
  match LoadSources fs with
  | Err _ => []
  | Ok sources => completeNames (ToLower toComplete) sources
  end.

End CommandLine.

(** ** Further definitions used to state properties *)

(** The ten bytes [sanitizeFilename] replaces. *)
Definition hostileByte (c : ascii) : bool :=
  Ascii.eqb c "/" || Ascii.eqb c backslash || Ascii.eqb c ":" || Ascii.eqb c "*"
  || Ascii.eqb c "?" || Ascii.eqb c dquote || Ascii.eqb c "<" || Ascii.eqb c ">"
  || Ascii.eqb c "|" || Ascii.eqb c "@".

(** [safeName s]: none of those bytes occurs in [s]. *)
Fixpoint safeName (s : string) : bool :=
  match s with
  | EmptyString => true
  | String c r => negb (hostileByte c) && safeName r
  end.

(** The record [writeEvent] writes for [event], if it writes one: file name
    and document. None is written for an event without usable uid, for one
    that does not encode, and for one whose file name the host refuses. *)
Definition recordFor {Bytes : Type} `{!ical.Codec Bytes} (event : ical.Component)
  : option (string * Bytes) :=
  match ical.Props_Text (ical.Props event) ical.PropUID with
  | None => None
  | Some uid =>
      if String.eqb uid EmptyString then None
      else match ical.Encode (eventCal event) with
           | None => None
           | Some buf =>
               if refusedPath (sanitizeFilename uid +:+ ".ics") then None
               else Some (sanitizeFilename uid +:+ ".ics", buf)
           end
  end.

(** The directory left by writing the records of [events], in order, into
    the directory [d]. *)
Definition recordsInto {Bytes : Type} `{!ical.Codec Bytes}
  (events : list ical.Component) (d : gmap string Bytes) : gmap string Bytes :=
  fold_left (fun d' event =>
               match recordFor event with
               | Some (filename, buf) => <[filename := buf]> d'
               | None => d'
               end) events d.

(** [atMidnightUTC t]: [t] is midnight UTC of some day. *)
Definition atMidnightUTC (t : time.Time) : Prop :=
  time.loc t = time.UTC /\ time.nsec t = 0 /\ time.sec t mod 86400 = 0.

(** [withinBounds from to t]: [t] passes the range test, each bound being
    inclusive and a zero bound being no bound. *)
Definition withinBounds (from to t : time.Time) : Prop :=
  (time.IsZero from = true \/ instant_le from t)
  /\ (time.IsZero to = true \/ instant_le t to).

(** [strings.ToLower] on the bytes [A] to [Z], its effect on ASCII
    strings, for the reference host. *)
Definition asciiLower (c : ascii) : ascii :=
  let n := nat_of_ascii c in
  if (65 <=? n)%nat && (n <=? 90)%nat then ascii_of_nat (n + 32) else c.

Fixpoint asciiToLower (s : string) : string :=
  match s with
  | EmptyString => EmptyString
  | String c r => String (asciiLower c) (asciiToLower r)
  end.

(** [noRecordAt f events]: no event of [events] is written to file [f]. *)
Definition noRecordAt {Bytes : Type} `{!ical.Codec Bytes}
  (f : string) (events : list ical.Component) : Prop :=
  Forall (fun event => forall buf, recordFor event <> Some (f, buf)) events.

(** The [Event] that [readEvent] builds from the component [ie] for the
    source [calName]. *)
Definition eventOf {Bytes : Type} `{!ical.Codec Bytes} `{!time.Zoneinfo}
  (ie : ical.Component) (calName : string) : Event :=
  mkEvent (textOrEmpty (ical.Props ie) ical.PropUID)
          (textOrEmpty (ical.Props ie) ical.PropSummary)
          (textOrEmpty (ical.Props ie) ical.PropDescription)
          (textOrEmpty (ical.Props ie) ical.PropLocation)
          (parseEventTime ie ical.PropDateTimeStart).1
          (parseEventTime ie ical.PropDateTimeEnd).1
          calName
          (parseEventTime ie ical.PropDateTimeStart).2.

(** [hasRecord fs name uid]: the directory of source [name] has an [.ics]
    file that decodes to an event with uid [uid]. *)
Definition hasRecord {Bytes : Type} `{!ical.Codec Bytes} `{!time.Zoneinfo}
  (fs : FS Bytes) (name uid : string) : Prop :=
  exists (d : gmap string Bytes) (entry : string) (e : Event),
    calendar_dirs fs !! name = Some d /\ is_Some (d !! entry)
    /\ HasSuffix entry ".ics" = true
    /\ readEvent fs name entry name = Ok e /\ UID e = uid.

(** The reference registry with no event directory yet. *)
Definition emptyFSWithSources : FS Doc := mkFS (Regular (DocSources refSources)) ∅.

(** [simpleDirs fs]: every directory of the store has a single-component
    name, so none lies inside another and none sits at the path of a
    record. *)
Definition simpleDirs {Bytes : Type} (fs : FS Bytes) : Prop :=
  forall name, is_Some (calendar_dirs fs !! name) -> simpleName name = true.

(** A string of [n] bytes [c], to try the limits of the host. *)
Fixpoint bytes (n : nat) (c : ascii) : string :=
  match n with
  | O => EmptyString
  | S n' => String c (bytes n' c)
  end.

(** * Properties *)

(** ** Filenames *)

Lemma unsanitize_plain c r :
  plainByte c = true ->
  unsanitize (replacement c +:+ r) = String c (unsanitize r).
Proof.
  unfold plainByte, replacement.
  destruct c as [[] [] [] [] [] [] [] []]; cbn; intros Hc; try discriminate Hc; reflexivity.
Qed.

Lemma unsanitize_sanitizeFilename u :
  plainUID u = true -> unsanitize (sanitizeFilename u) = u.
Proof.
  induction u as [|c r IH]; [reflexivity|].
  cbn [plainUID sanitizeFilename]. intros [Hc Hr]%andb_true_iff.
  rewrite unsanitize_plain by exact Hc. f_equal. auto.
Qed.

(** C5, as stated, fails: two distinct uids of the usual [local@domain] shape
    get the same file name, because [:] and [_] both become [_]. *)
Lemma sanitizeFilename_collision :
  "meeting:1@example.com" <> "meeting_1@example.com"
  /\ sanitizeFilename "meeting:1@example.com" = sanitizeFilename "meeting_1@example.com".
Proof. split; [discriminate | reflexivity]. Qed.

(** C5, amended: on uids that contain no underscore and none of the nine
    characters replaced by an underscore ([@] is allowed), distinct uids get
    distinct file names. *)
Theorem sanitizeFilename_injective_plain (u1 u2 : string) :
  plainUID u1 = true -> plainUID u2 = true ->
  u1 <> u2 -> sanitizeFilename u1 <> sanitizeFilename u2.
Proof.
  intros H1 H2 Hne Heq. apply Hne.
  rewrite <- (unsanitize_sanitizeFilename u1 H1), <- (unsanitize_sanitizeFilename u2 H2).
  now rewrite Heq.
Qed.

Lemma sanitizeFilename_injective_plain_witness :
  sanitizeFilename "20240315T090000Z-1@example.com"
  <> sanitizeFilename "20240315T090000Z-2@example.com".
Proof.
  apply (sanitizeFilename_injective_plain
           "20240315T090000Z-1@example.com" "20240315T090000Z-2@example.com");
    [reflexivity | reflexivity | discriminate].
Defined.

(** ** Times *)

Lemma Before_spec t u : time.Before t u = true <-> instant_lt t u.
Proof. unfold time.Before, instant_lt. lia. Qed.

Lemma After_spec t u : time.After t u = true <-> instant_lt u t.
Proof. unfold time.After, instant_lt. lia. Qed.

Lemma Before_false t u : time.Before t u = false <-> instant_le u t.
Proof. unfold time.Before, instant_le. lia. Qed.

Lemma After_false t u : time.After t u = false <-> instant_le t u.
Proof. unfold time.After, instant_le. lia. Qed.

Lemma instant_le_not_lt t u : instant_le t u <-> ~ instant_lt u t.
Proof. unfold instant_le, instant_lt. lia. Qed.

(** ** sort.Slice *)

Section SortFacts.
Context {A : Type} (less : A -> A -> bool).
Hypothesis less_asym : forall a b, less a b = true -> less b a = false.
Hypothesis less_negtrans :
  forall a b c, less a b = false -> less b c = false -> less a c = false.

Lemma insertLeft_Permutation x (rprefix : list A) :
  insertLeft less x rprefix ≡ₚ x :: rprefix.
Proof.
  induction rprefix as [|y r IH]; cbn; [done|].
  destruct (less x y); [|done].
  rewrite IH. apply Permutation_swap.
Qed.

Lemma sort_loop_Permutation (data acc : list A) :
  fold_left (fun rprefix x => insertLeft less x rprefix) data acc ≡ₚ data ++ acc.
Proof.
  revert acc. induction data as [|x data IH]; intros acc; cbn; [done|].
  rewrite IH, insertLeft_Permutation. by rewrite Permutation_middle.
Qed.

Lemma sort_Slice_Permutation (data : list A) : sort_Slice less data ≡ₚ data.
Proof.
  unfold sort_Slice. rewrite <- Permutation_rev, sort_loop_Permutation.
  by rewrite app_nil_r.
Qed.

(** The reversed prefix is ordered downwards. *)
Lemma insertLeft_sorted x (rprefix : list A) :
  StronglySorted (fun a b => less a b = false) rprefix ->
  StronglySorted (fun a b => less a b = false) (insertLeft less x rprefix).
Proof.
  induction rprefix as [|y r IH]; cbn; intros Hs.
  - repeat constructor.
  - apply StronglySorted_cons in Hs as [Hy Hr].
    destruct (less x y) eqn:Hxy.
    + apply StronglySorted_cons. split; [|auto].
      rewrite insertLeft_Permutation. constructor; auto.
    + apply StronglySorted_cons. split.
      * constructor; [done|].
        eapply Forall_impl; [exact Hy|]. cbn. eauto.
      * apply StronglySorted_cons. auto.
Qed.

Lemma sort_loop_sorted (data acc : list A) :
  StronglySorted (fun a b => less a b = false) acc ->
  StronglySorted (fun a b => less a b = false)
    (fold_left (fun rprefix x => insertLeft less x rprefix) data acc).
Proof.
  revert acc. induction data as [|x data IH]; intros acc Hacc; cbn; [done|].
  apply IH, insertLeft_sorted, Hacc.
Qed.

Lemma StronglySorted_rev (R : A -> A -> Prop) (l : list A) :
  StronglySorted R l -> StronglySorted (fun a b => R b a) (rev l).
Proof.
  induction 1 as [|x l Hl IH Hx]; cbn; [constructor|].
  apply StronglySorted_app. split_and!; [|done|repeat constructor].
  intros a b Ha Hb. apply list_elem_of_singleton in Hb as ->.
  rewrite Forall_forall in Hx. apply Hx.
  apply list_elem_of_In. apply list_elem_of_In, in_rev in Ha. exact Ha.
Qed.

Lemma sort_Slice_sorted (data : list A) :
  StronglySorted (fun a b => less b a = false) (sort_Slice less data).
Proof.
  unfold sort_Slice.
  apply (StronglySorted_rev (fun a b => less a b = false)).
  apply sort_loop_sorted. constructor.
Qed.

End SortFacts.

Lemma StronglySorted_lookup {A} (R : A -> A -> Prop) (l : list A) (i j : nat) a b :
  StronglySorted R l -> (i < j)%nat -> l !! i = Some a -> l !! j = Some b -> R a b.
Proof.
  intros Hs. revert i j. induction Hs as [|x l Hl IH Hx]; intros i j Hij Hi Hj.
  - by rewrite lookup_nil in Hi.
  - destruct j as [|j]; [lia|]. cbn in Hj.
    destruct i as [|i]; cbn in Hi.
    + injection Hi as ->. rewrite Forall_forall in Hx.
      apply Hx. by eapply list_elem_of_lookup_2.
    + apply (IH i j); [lia|done..].
Qed.

(** ** The range query *)

Lemma fold_left_app_flat_map {A B} (g : list B -> A -> list B) (f : A -> list B)
    (l : list A) (acc : list B) :
  (forall acc x, g acc x = acc ++ f x) ->
  fold_left g l acc = acc ++ flat_map f l.
Proof.
  intros Hg. revert acc. induction l as [|x l IH]; intros acc; cbn.
  - by rewrite app_nil_r.
  - by rewrite IH, Hg, app_assoc.
Qed.

Section Query.
Context {Bytes : Type} {codec : ical.Codec Bytes} {registry : Registry Bytes}
        {zoneinfo : time.Zoneinfo}.
Implicit Types (fs : FS Bytes) (e : Event) (s : Source).

Lemma loadEntry_app fs calName events entry :
  loadEntry fs calName events entry = events ++ entryEvents fs calName entry.
Proof.
  unfold loadEntry, entryEvents.
  destruct (negb _); [by rewrite app_nil_r|].
  destruct (readEvent _ _ _ _); [done|by rewrite app_nil_r].
Qed.

Lemma collect_app fs events s : collect fs events s = events ++ sourceEvents fs s.
Proof.
  unfold collect, sourceEvents.
  destruct (loadCalendarEvents _ _); [done|by rewrite app_nil_r].
Qed.

Lemma loadCalendarEvents_flat_map fs calName entries :
  os_ReadDir fs calName = Ok entries ->
  loadCalendarEvents fs calName = Ok (flat_map (entryEvents fs calName) entries).
Proof.
  unfold loadCalendarEvents. intros ->. f_equal.
  rewrite (fold_left_app_flat_map _ (entryEvents fs calName)); [done|].
  intros. apply loadEntry_app.
Qed.

Lemma collected_allEvents fs sources :
  fold_left (collect fs) sources [] = allEvents fs sources.
Proof.
  unfold allEvents.
  rewrite (fold_left_app_flat_map _ (sourceEvents fs)); [done|].
  intros. apply collect_app.
Qed.

Lemma os_ReadDir_elem_of fs dir (d : gmap string Bytes) entries entry :
  calendar_dirs fs !! dir = Some d ->
  os_ReadDir fs dir = Ok entries ->
  entry ∈ entries <-> is_Some (d !! entry).
Proof.
  unfold os_ReadDir. intros -> [= <-].
  rewrite merge_sort_Permutation, list_elem_of_fmap. split.
  - intros [[k v] [-> Hkv]]. apply elem_of_map_to_list in Hkv. by exists v.
  - intros [v Hv]. exists (entry, v). split; [done|]. by apply elem_of_map_to_list.
Qed.

Lemma allEvents_stored fs sources e :
  e ∈ allEvents fs sources <-> storedEvent fs sources e.
Proof.
  unfold allEvents, storedEvent. rewrite list_elem_of_In, in_flat_map. split.
  - intros (s & Hs & He). unfold sourceEvents in He.
    destruct (calendar_dirs fs !! Name s) as [d|] eqn:Hd.
    + assert (Hrd : exists entries, os_ReadDir fs (Name s) = Ok entries).
      { unfold os_ReadDir. rewrite Hd. eauto. }
      destruct Hrd as [entries Hrd].
      rewrite (loadCalendarEvents_flat_map _ _ _ Hrd) in He.
      apply in_flat_map in He as (entry & Hentry & He).
      exists s, d, entry. rewrite <- (os_ReadDir_elem_of fs (Name s) d entries entry Hd Hrd).
      rewrite !list_elem_of_In. split_and!; [done..| |].
      * unfold entryEvents in He. by destruct (HasSuffix entry ".ics").
      * unfold entryEvents in He. destruct (HasSuffix entry ".ics"); [|done].
        cbn in He. destruct (readEvent _ _ _ _); [|done].
        destruct He as [->|[]]. done.
    + unfold loadCalendarEvents, os_ReadDir in He. by rewrite Hd in He.
  - intros (s & d & entry & Hs & Hd & Hentry & Hsuf & Hread).
    exists s. split; [by apply list_elem_of_In|].
    assert (Hrd : os_ReadDir fs (Name s)
                  = Ok (merge_sort name_le (map fst (map_to_list d)))).
    { unfold os_ReadDir. by rewrite Hd. }
    unfold sourceEvents. rewrite (loadCalendarEvents_flat_map _ _ _ Hrd).
    apply in_flat_map. exists entry. split.
    + apply list_elem_of_In. by apply (os_ReadDir_elem_of fs (Name s) d _ entry Hd Hrd).
    + unfold entryEvents. rewrite Hsuf, Hread. cbn. auto.
Qed.

Lemma ListEvents_eq fs from to sources :
  LoadSources fs = Ok sources ->
  ListEvents fs from to
  = Ok (sort_Slice (fun a b => time.Before (Start a) (Start b))
          (List.filter (inRange from to) (allEvents fs sources))).
Proof. unfold ListEvents. intros ->. by rewrite collected_allEvents. Qed.

Lemma ListEvents_inv fs from to events :
  ListEvents fs from to = Ok events ->
  exists sources, LoadSources fs = Ok sources
    /\ events = sort_Slice (fun a b => time.Before (Start a) (Start b))
                  (List.filter (inRange from to) (allEvents fs sources)).
Proof.
  intros H. destruct (LoadSources fs) as [sources|err] eqn:Hl.
  - exists sources. split; [done|]. rewrite (ListEvents_eq _ _ _ _ Hl) in H. congruence.
  - unfold ListEvents in H. by rewrite Hl in H.
Qed.

Lemma ListEvents_elem_of fs from to sources events e :
  LoadSources fs = Ok sources ->
  ListEvents fs from to = Ok events ->
  e ∈ events <-> storedEvent fs sources e /\ inRange from to e = true.
Proof.
  intros Hl H. rewrite (ListEvents_eq _ _ _ _ Hl) in H. injection H as <-.
  rewrite sort_Slice_Permutation, <- allEvents_stored.
  rewrite !list_elem_of_In. apply filter_In.
Qed.

Lemma inRange_from from to e :
  time.IsZero from = false -> inRange from to e = true -> ~ instant_lt (Start e) from.
Proof.
  unfold inRange. intros ->. cbn. rewrite <- Before_spec.
  destruct (time.Before (Start e) from); [discriminate|auto].
Qed.

Lemma inRange_to from to e :
  time.IsZero to = false -> inRange from to e = true -> ~ instant_lt to (Start e).
Proof.
  unfold inRange. intros ->. cbn. rewrite <- After_spec.
  destruct (time.After (Start e) to); [|auto].
  by destruct (_ && _).
Qed.

Lemma inRange_zero from to e :
  time.IsZero from = true -> time.IsZero to = true -> inRange from to e = true.
Proof. unfold inRange. by intros -> ->. Qed.

(** C1: [ListEvents] returns no event that starts strictly before a
    non-zero [from], none that starts strictly after a non-zero [to], and,
    when both bounds are zero, every event that a stored record of a
    configured source decodes to (each as often as it is stored). *)
Theorem ListEvents_range fs (from to : time.Time) (events : list Event) :
  ListEvents fs from to = Ok events ->
  (time.IsZero from = false -> forall e, e ∈ events -> ~ instant_lt (Start e) from)
  /\ (time.IsZero to = false -> forall e, e ∈ events -> ~ instant_lt to (Start e))
  /\ (time.IsZero from = true -> time.IsZero to = true ->
      forall sources, LoadSources fs = Ok sources ->
        (forall e, storedEvent fs sources e -> e ∈ events)
        /\ events ≡ₚ allEvents fs sources).
Proof.
  intros H. destruct (ListEvents_inv _ _ _ _ H) as (sources & Hl & Hev).
  split_and!.
  - intros Hz e He. apply (ListEvents_elem_of _ _ _ _ _ e Hl H) in He as [_ He].
    by apply (inRange_from from to).
  - intros Hz e He. apply (ListEvents_elem_of _ _ _ _ _ e Hl H) in He as [_ He].
    by apply (inRange_to from to).
  - intros Hf Ht sources' Hl'. assert (sources' = sources) as -> by congruence.
    split.
    + intros e He. apply (ListEvents_elem_of _ _ _ _ _ e Hl H).
      split; [done|by apply inRange_zero].
    + rewrite Hev, sort_Slice_Permutation.
      rewrite (forallb_filter_id (inRange from to) (allEvents fs sources)); [done|].
      apply forallb_forall. intros e _. by apply inRange_zero.
Qed.

Lemma Before_asym (a b : Event) :
  time.Before (Start a) (Start b) = true -> time.Before (Start b) (Start a) = false.
Proof. unfold time.Before. lia. Qed.

Lemma Before_negtrans (a b c : Event) :
  time.Before (Start a) (Start b) = false -> time.Before (Start b) (Start c) = false ->
  time.Before (Start a) (Start c) = false.
Proof. unfold time.Before. lia. Qed.

(** C8: the sequence returned by [ListEvents] is non-decreasing by start:
    of two positions [i < j], the event at [i] starts no later than the
    event at [j]. *)
Theorem ListEvents_sorted fs (from to : time.Time) (events : list Event)
    (i j : nat) (ei ej : Event) :
  ListEvents fs from to = Ok events ->
  (i < j)%nat -> events !! i = Some ei -> events !! j = Some ej ->
  instant_le (Start ei) (Start ej).
Proof.
  intros H Hij Hi Hj. destruct (ListEvents_inv _ _ _ _ H) as (sources & _ & ->).
  apply Before_false.
  eapply (StronglySorted_lookup
            (fun a b => time.Before (Start b) (Start a) = false) _ i j ei ej);
    [|done..].
  apply (sort_Slice_sorted (fun a b => time.Before (Start a) (Start b)));
    [apply Before_asym|apply Before_negtrans].
Qed.

End Query.

Lemma ListEvents_range_witness :
  (time.IsZero refFrom = false -> forall e, e ∈ refMarch -> ~ instant_lt (Start e) refFrom)
  /\ (time.IsZero refTo = false -> forall e, e ∈ refMarch -> ~ instant_lt refTo (Start e))
  /\ (time.IsZero refFrom = true -> time.IsZero refTo = true ->
      forall sources, @LoadSources Doc refRegistry refFS = Ok sources ->
        (forall e, @storedEvent Doc refCodec refZoneinfo refFS sources e -> e ∈ refMarch)
        /\ refMarch ≡ₚ @allEvents Doc refCodec refZoneinfo refFS sources).
Proof.
  apply (@ListEvents_range Doc refCodec refRegistry refZoneinfo refFS refFrom refTo refMarch).
  vm_compute. reflexivity.
Defined.

Lemma ListEvents_sorted_witness :
  exists ei ej, refAll !! 1%nat = Some ei /\ refAll !! 2%nat = Some ej
                /\ instant_le (Start ei) (Start ej).
Proof.
  eexists _, _. split; [reflexivity|]. split; [reflexivity|].
  apply (@ListEvents_sorted Doc refCodec refRegistry refZoneinfo refFS time.zero time.zero
           refAll 1 2); [vm_compute; reflexivity | lia | reflexivity | reflexivity].
Defined.

(** ** Sync *)

Section Sync.
Context {Bytes : Type} {codec : ical.Codec Bytes} {registry : Registry Bytes}
        {zoneinfo : time.Zoneinfo}.
Implicit Types (fs : FS Bytes) (s : Source) (resp : HttpResult Bytes).



End Sync.


Section SyncStore.
Context {Bytes : Type} {codec : ical.Codec Bytes} {registry : Registry Bytes}
        {zoneinfo : time.Zoneinfo}.
Implicit Types (fs : FS Bytes) (s : Source) (resp : HttpResult Bytes).

(** C9: when [syncSource] fails with a fetch error or a parse error, the
    file system, and so the source's stored records, is exactly as before;
    the store changes only once the fetch returned status 200 and the body
    was decoded. *)
Theorem syncSource_failure_keeps_store resp fs s (err : Error) :
  (syncSource resp fs s).2 = Some err ->
  (err = ParseError \/ exists cause, err = FetchError cause) ->
  (syncSource resp fs s).1.1 = fs
  /\ ((syncSource resp fs s).1.2 = [])
  /\ (forall fs', (syncSource resp fs' s).1.1 <> fs' ->
        exists body cal, resp = Response StatusOK body /\ ical.Decode body = Some cal).
Proof.
  intros Herr Hkind. split_and!.
  - revert Herr. unfold syncSource. destruct resp as [|code body]; [done|].
    destruct (negb _); [done|]. destruct (ical.Decode body); [|done].
    destruct (os_MkdirAll fs (Name s)); [|done].
    destruct (fold_left _ _ _); cbn; intros [= <-]; destruct Hkind as [?|[? ?]]; done.
  - revert Herr. unfold syncSource. destruct resp as [|code body]; [done|].
    destruct (negb _); [done|]. destruct (ical.Decode body); [|done].
    destruct (os_MkdirAll fs (Name s)); [|done].
    destruct (fold_left _ _ _); cbn; intros [= <-]; destruct Hkind as [?|[? ?]]; done.
  - intros fs'. unfold syncSource. destruct resp as [|code body]; [by intros []|].
    destruct (code =? StatusOK) eqn:Hcode; cbn [negb]; [|by intros []].
    apply Z.eqb_eq in Hcode as ->.
    destruct (ical.Decode body) as [cal|] eqn:Hd; [intros _; eauto|by intros []].
Qed.

(** *** The batch *)




End SyncStore.

(** *** Full refresh *)

Section Refresh.
Context {Bytes : Type} {codec : ical.Codec Bytes} {registry : Registry Bytes}
        {zoneinfo : time.Zoneinfo}.
Implicit Types (fs : FS Bytes) (s : Source) (resp : HttpResult Bytes)
               (d : gmap string Bytes).

Lemma os_MkdirAll_dir fs fs1 dir :
  os_MkdirAll fs dir = Ok fs1 ->
  exists d, calendar_dirs fs1 !! dir = Some d
            /\ fs1 = mkFS (sources_file fs) (<[dir := d]> (calendar_dirs fs)).
Proof.
  unfold os_MkdirAll. destruct (calendar_dirs fs !! dir) as [d|] eqn:Hd.
  - intros [= <-]. exists d. split; [done|].
    rewrite insert_id by done. by destruct fs.
  - destruct (refusedPath dir); [done|]. intros [= <-]. exists ∅.
    split; [|done]. cbn. by rewrite lookup_insert_eq.
Qed.

Lemma remove_loop_dir (names : list string) fs dir d :
  calendar_dirs fs !! dir = Some d ->
  exists d', calendar_dirs (fold_left (fun fs' e => os_Remove fs' dir e) names fs) !! dir
             = Some d'
    /\ forall k, d' !! k = if decide (k ∈ names) then None else d !! k.
Proof.
  revert fs d. induction names as [|n names IH]; intros fs d Hd; cbn [fold_left].
  - exists d. split; [done|]. intros k. by rewrite decide_False by apply not_elem_of_nil.
  - destruct (IH (os_Remove fs dir n) (delete n d)) as (d' & Hd' & Hk).
    { unfold os_Remove. rewrite Hd. cbn. by rewrite lookup_insert_eq. }
    exists d'. split; [done|]. intros k. rewrite Hk.
    destruct (decide (k = n)) as [->|Hne].
    + rewrite lookup_delete_eq. rewrite (decide_True (P := n ∈ n :: names)) by left.
      by destruct (decide _).
    + rewrite lookup_delete_ne by done.
      destruct (decide (k ∈ names)) as [Hin|Hnin].
      * by rewrite decide_True by (by right).
      * rewrite decide_False; [done|]. by intros [?|?]%elem_of_cons.
Qed.

Lemma clearDir_empty fs dir d :
  calendar_dirs fs !! dir = Some d ->
  calendar_dirs (clearDir fs dir) !! dir = Some ∅.
Proof.
  intros Hd. unfold clearDir.
  destruct (os_ReadDir fs dir) as [entries|e] eqn:Hrd.
  2:{ unfold os_ReadDir in Hrd. by rewrite Hd in Hrd. }
  destruct (remove_loop_dir entries fs dir d Hd) as (d' & -> & Hk).
  f_equal. apply map_eq. intros k. rewrite Hk, lookup_empty.
  destruct (decide (k ∈ entries)) as [|Hnin]; [done|].
  destruct (d !! k) eqn:Hdk; [|done]. exfalso. apply Hnin.
  apply (os_ReadDir_elem_of fs dir d entries k Hd Hrd). by rewrite Hdk.
Qed.

Lemma writeEvent_inv cal dir fs count d ev :
  ev ∈ ical.Events cal ->
  calendar_dirs fs !! dir = Some d ->
  map_Forall (writtenFrom cal) d ->
  exists d', calendar_dirs (writeEvent dir (fs, count) ev).1 !! dir = Some d'
             /\ map_Forall (writtenFrom cal) d'.
Proof.
  intros Hev Hd Hall. unfold writeEvent.
  destruct (ical.Props_Text _ _) as [uid|] eqn:Huid; [|by exists d].
  destruct (String.eqb uid EmptyString) eqn:Hne; [by exists d|].
  apply String.eqb_neq in Hne.
  destruct (ical.Encode (eventCal ev)) as [buf|] eqn:Henc; [|by exists d].
  unfold os_WriteFile. rewrite Hd.
  destruct (refusedPath (sanitizeFilename uid +:+ ".ics")); [by exists d|]. cbn.
  eexists. rewrite lookup_insert_eq. split; [done|].
  apply map_Forall_insert_2; [|done].
  by exists ev, uid.
Qed.

Lemma write_loop_inv cal dir (events : list ical.Component) fs count d :
  (forall ev, ev ∈ events -> ev ∈ ical.Events cal) ->
  calendar_dirs fs !! dir = Some d ->
  map_Forall (writtenFrom cal) d ->
  exists d', calendar_dirs (fold_left (writeEvent dir) events (fs, count)).1 !! dir = Some d'
             /\ map_Forall (writtenFrom cal) d'.
Proof.
  revert fs count d. induction events as [|ev events IH]; intros fs count d Hsub Hd Hall.
  - by exists d.
  - cbn [fold_left].
    destruct (writeEvent_inv cal dir fs count d ev) as (d1 & Hd1 & Hall1);
      [apply Hsub; left|done..|].
    destruct (writeEvent dir (fs, count) ev) as [fs1 count1]. cbn in Hd1.
    apply (IH fs1 count1 d1); [|done..].
    intros ev' Hev'. apply Hsub. by right.
Qed.

(** After a successful [syncSource] every record in the source's directory
    was written from the feed just fetched. *)
Lemma syncSource_store resp fs s :
  (syncSource resp fs s).2 = None ->
  exists body cal d,
    resp = Response StatusOK body /\ ical.Decode body = Some cal
    /\ calendar_dirs (syncSource resp fs s).1.1 !! Name s = Some d
    /\ map_Forall (writtenFrom cal) d.
Proof.
  unfold syncSource. destruct resp as [|code body]; [done|].
  destruct (code =? StatusOK) eqn:Hcode; cbn [negb]; [|done].
  apply Z.eqb_eq in Hcode as ->.
  destruct (ical.Decode body) as [cal|] eqn:Hdec; [|done].
  destruct (os_MkdirAll fs (Name s)) as [fs1|e] eqn:Hmk; [|done].
  destruct (os_MkdirAll_dir fs fs1 (Name s) Hmk) as (d1 & Hd1 & _).
  pose proof (clearDir_empty fs1 (Name s) d1 Hd1) as Hclear.
  destruct (write_loop_inv cal (Name s) (ical.Events cal) (clearDir fs1 (Name s)) 0%nat ∅)
    as (d & Hd & Hall); [done|done|apply map_Forall_empty|].
  destruct (fold_left _ _ _) as [fs3 count]. cbn in *. intros _.
  by exists body, cal, d.
Qed.

Lemma Events_eventCal ev cal :
  ev ∈ ical.Events cal -> ical.Events (eventCal ev) = [ev].
Proof.
  unfold ical.Events at 1. intros [_ Hname]%list_elem_of_In%filter_In.
  unfold ical.Events, eventCal. cbn. by rewrite Hname.
Qed.

(** Reading back a record written from the feed [cal] gives the uid it was
    written for. *)
Lemma readEvent_written cal fs dir d entry data calName (e : Event) :
  roundTrip ->
  calendar_dirs fs !! dir = Some d -> d !! entry = Some data ->
  writtenFrom cal entry data ->
  readEvent fs dir entry calName = Ok e ->
  feedHas cal (UID e).
Proof.
  intros Hrt Hd Hentry (ev & uid & Hev & Huid & Hne & _ & Henc) Hread.
  unfold readEvent, os_ReadFile in Hread. rewrite Hd, Hentry in Hread.
  rewrite (Hrt _ _ Henc), (Events_eventCal ev cal Hev) in Hread.
  destruct (parseEventTime ev ical.PropDateTimeStart) as [start allDay].
  destruct (parseEventTime ev ical.PropDateTimeEnd) as [end_ ?].
  injection Hread as <-. cbn. exists ev. split; [done|].
  unfold textOrEmpty. by rewrite Huid.
Qed.

(** C2: a sync is a full refresh. If [syncSource] succeeds on a first feed
    that has an event with uid [u], and then succeeds on a second feed that
    has none, then after the second sync every record in the source's
    directory was written from an event of the second feed, and, the
    library decoding what it encoded, no record there decodes to an event
    with uid [u]. *)
Theorem syncSource_full_refresh resp1 resp2 fs s (u : string) body1 cal1 body2 cal2 :
  resp1 = Response StatusOK body1 -> ical.Decode body1 = Some cal1 -> feedHas cal1 u ->
  (syncSource resp1 fs s).2 = None ->
  resp2 = Response StatusOK body2 -> ical.Decode body2 = Some cal2 -> ~ feedHas cal2 u ->
  (syncSource resp2 (syncSource resp1 fs s).1.1 s).2 = None ->
  (exists d,
      calendar_dirs (syncSource resp2 (syncSource resp1 fs s).1.1 s).1.1 !! Name s = Some d
      /\ map_Forall (writtenFrom cal2) d)
  /\ (roundTrip ->
      ~ recordOf (syncSource resp2 (syncSource resp1 fs s).1.1 s).1.1 (Name s) u).
Proof.
  intros -> Hdec1 Hhas1 Hok1 -> Hdec2 Hnot2 Hok2.
  destruct (syncSource_store _ _ _ Hok2) as (body & cal & d' & [= <-] & Hdec & Hd' & Hall).
  assert (cal = cal2) as -> by congruence.
  split; [by exists d'|].
  intros Hrt (d & entry & e & Hd & [data Hentry] & Hread & Hu).
  assert (d' = d) as -> by congruence.
  apply Hnot2. rewrite <- Hu.
  eapply readEvent_written; [done|exact Hd|exact Hentry| |exact Hread].
  by apply (Hall entry data).
Qed.

End Refresh.

(** *** The reference host at work *)

Lemma refCodec_roundTrip : @roundTrip Doc refCodec.
Proof.
  intros cal buf. cbn. destruct (ical.Children cal); [done|].
  by intros [= <-].
Qed.

Lemma feedReviewOnly_omits_standup :
  ~ @feedHas Doc refCodec (refCalendar [review]) "standup@example.com".
Proof.
  intros (ev & Hev & Huid). vm_compute in Hev.
  apply list_elem_of_singleton in Hev as ->. vm_compute in Huid. discriminate.
Qed.

Lemma feedBoth_has_standup :
  @feedHas Doc refCodec (refCalendar [standup; review]) "standup@example.com".
Proof. exists standup. split; [left|reflexivity]. Qed.

Lemma syncSource_full_refresh_witness :
  ~ @recordOf Doc refCodec refZoneinfo
      (@syncSource Doc refCodec (Response 200 feedReviewOnly)
         (@syncSource Doc refCodec (Response 200 feedBoth) refFS workSource).1.1
         workSource).1.1
      "work" "standup@example.com".
Proof.
  apply (@syncSource_full_refresh Doc refCodec refZoneinfo
           (Response 200 feedBoth) (Response 200 feedReviewOnly) refFS workSource
           "standup@example.com"
           feedBoth (refCalendar [standup; review])
           feedReviewOnly (refCalendar [review])).
  - reflexivity.
  - reflexivity.
  - exact feedBoth_has_standup.
  - vm_compute. reflexivity.
  - reflexivity.
  - reflexivity.
  - exact feedReviewOnly_omits_standup.
  - vm_compute. reflexivity.
  - exact refCodec_roundTrip.
Defined.

(** After the first sync of that scenario the record is there. *)
Example standup_stored_after_first_sync :
  @recordOf Doc refCodec refZoneinfo
    (@syncSource Doc refCodec (Response 200 feedBoth) refFS workSource).1.1
    "work" "standup@example.com".
Proof.
  eexists _, "standup_at_example.com.ics", _.
  split; [vm_compute; reflexivity|].
  split; [vm_compute; eauto|].
  split; vm_compute; reflexivity.
Qed.


Lemma syncSource_failure_keeps_store_witness :
  (@syncSource Doc refCodec (Response 200 (DocOther "<html>")) refFS workSource).1.1 = refFS
  /\ (@syncSource Doc refCodec (Response 200 (DocOther "<html>")) refFS workSource).1.2 = []
  /\ (forall fs',
        (@syncSource Doc refCodec (Response 200 (DocOther "<html>")) fs' workSource).1.1 <> fs' ->
        exists body cal, Response 200 (DocOther "<html>") = Response StatusOK body
                         /\ ical.Decode (Codec := refCodec) body = Some cal).
Proof.
  apply (@syncSource_failure_keeps_store Doc refCodec
           (Response 200 (DocOther "<html>")) refFS workSource ParseError).
  - reflexivity.
  - left. reflexivity.
Defined.


(** ** The source registry *)

Section RegistryFacts.
Context {Bytes : Type} {registry : Registry Bytes}.
Implicit Types (fs : FS Bytes) (sources : list Source).

Lemma nameExists_spec name sources :
  nameExists name sources = true <-> name ∈ map Name sources.
Proof.
  induction sources as [|s rest IH]; cbn.
  - split; [done|]. by intros ?%elem_of_nil.
  - destruct (String.eqb (Name s) name) eqn:Heq.
    + apply String.eqb_eq in Heq as <-. split; [left|done].
    + apply String.eqb_neq in Heq. rewrite IH. split; [by right|].
      intros [?|?]%elem_of_cons; [congruence|done].
Qed.



Lemma AddSource_fresh fs (name url : string) sources :
  LoadSources fs = Ok sources -> name ∉ map Name sources ->
  AddSource fs name url
  = (mkFS (Regular (json_MarshalIndent (sources ++ [mkSource name url])))
          (calendar_dirs fs), None).
Proof.
  intros Hl Hnin. unfold AddSource. rewrite Hl.
  destruct (nameExists name sources) eqn:Hex; [|done].
  by apply nameExists_spec in Hex.
Qed.

Lemma LoadSources_saved (dirs : gmap string (gmap string Bytes)) sources :
  (forall l, json_Unmarshal (json_MarshalIndent l) = Some l) ->
  LoadSources (mkFS (Regular (json_MarshalIndent sources)) dirs) = Ok sources.
Proof. intros Hrt. unfold LoadSources. cbn. by rewrite Hrt. Qed.



End RegistryFacts.



(** The comparison of names is exact: [Work] is not [work]. *)
Example AddSource_case_sensitive :
  (@AddSource Doc refRegistry refFS "Work" "https://example.com/W.ics").2 = None.
Proof. reflexivity. Qed.

(** ** The time resolver *)

Section Resolver.
Context {Bytes : Type} {codec : ical.Codec Bytes} {zoneinfo : time.Zoneinfo}.

Lemma isAllDay_spec (p : ical.Property) :
  isAllDay p = true
  <-> exists values, ical.Params p !! "VALUE" = Some values /\ "DATE" ∈ values.
Proof.
  unfold isAllDay. destruct (ical.Params p !! "VALUE") as [values|].
  - rewrite existsb_exists. split.
    + intros (v & Hin & ->%String.eqb_eq). exists values. by rewrite list_elem_of_In.
    + intros (? & [= <-] & Hin). exists "DATE". by rewrite <- list_elem_of_In.
  - split; [done|]. by intros (? & ? & _).
Qed.

Lemma Parse_20240315 :
  time.Parse_20060102 "20240315" = Some (time.mkTime 63846057600 0 time.UTC).
Proof. reflexivity. Qed.

Lemma ParseInLocation_20240315T090000 (l : time.Location) :
  time.ParseInLocation_20060102T150405 "20240315T090000" l
  = Some (time.Date 2024 3 15 9 0 0 l).
Proof. reflexivity. Qed.

(** C4: a property with value "20240315" whose [VALUE] parameter lists
    [DATE] resolves to all-day, at midnight UTC of March 15, 2024 (Unix
    second 1710460800), whatever its other parameters and the host's zones.
    A property with value "20240315T090000", no date-only value type and a
    [TZID] the host resolves to [l] resolves to not all-day, at 09:00:00 of
    March 15, 2024 on the wall clock of [l]; the library's [DateTime] is
    taken to read that form of value in the location it is given. *)
Theorem parseEventTime_allDay_detection (event : ical.Component) (prop : string)
    (p : ical.Property) :
  ical.Props_Get (ical.Props event) prop = Some p ->
  (ical.Value p = "20240315" ->
   (exists values, ical.Params p !! "VALUE" = Some values /\ "DATE" ∈ values) ->
   parseEventTime event prop = (time.mkTime 63846057600 0 time.UTC, true)
   /\ time.Unix (parseEventTime event prop).1 = 1710460800
   /\ time.sec (parseEventTime event prop).1 = time.daysSinceEpoch 2024 3 15 * 86400)
  /\ (forall tzid rest l,
        ical.Value p = "20240315T090000" ->
        isAllDay p = false ->
        ical.Params p !! "TZID" = Some (tzid :: rest) ->
        time.LoadLocation tzid = Some l ->
        ical.DateTime p l = time.ParseInLocation_20060102T150405 (ical.Value p) l ->
        parseEventTime event prop = (time.Date 2024 3 15 9 0 0 l, false)).
Proof.
  intros Hget. unfold parseEventTime. rewrite Hget. split.
  - intros Hv Hdate. apply isAllDay_spec in Hdate. rewrite Hdate, Hv, Parse_20240315.
    done.
  - intros tzid rest l Hv Hnot Htz Hl Hlib. rewrite Hnot.
    unfold tzidLocation. rewrite Htz, Hl, Hlib, Hv, ParseInLocation_20240315T090000.
    done.
Qed.

(** C10: when the property does not declare [VALUE=DATE], the library's
    date-time decoding fails in the location chosen for the property, and
    the value parses as a bare date, the resolver returns that date with the
    all-day flag set. *)
Theorem parseEventTime_fallback_allDay (event : ical.Component) (prop : string)
    (p : ical.Property) (t : time.Time) :
  ical.Props_Get (ical.Props event) prop = Some p ->
  isAllDay p = false ->
  ical.DateTime p (tzidLocation p) = None ->
  time.Parse_20060102 (ical.Value p) = Some t ->
  parseEventTime event prop = (t, true).
Proof.
  intros Hget Hnot Hprimary Hfallback. unfold parseEventTime.
  by rewrite Hget, Hnot, Hprimary, Hfallback.
Qed.

End Resolver.

Lemma parseEventTime_allDay_detection_witness :
  @parseEventTime Doc refCodec refZoneinfo holiday ical.PropDateTimeStart
  = (time.mkTime 63846057600 0 time.UTC, true)
  /\ @parseEventTime Doc refCodec refZoneinfo standup ical.PropDateTimeStart
     = (@time.Date refZoneinfo 2024 3 15 9 0 0 (time.Zone "Asia/Tokyo"), false).
Proof.
  split.
  - destruct (@parseEventTime_allDay_detection Doc refCodec refZoneinfo
                holiday ical.PropDateTimeStart (dtstartDate "20240315")) as [Hdate _];
      [reflexivity|].
    apply Hdate; [reflexivity|]. exists ["DATE"]. split; [reflexivity|left].
  - destruct (@parseEventTime_allDay_detection Doc refCodec refZoneinfo
                standup ical.PropDateTimeStart
                (dtstartZoned "Asia/Tokyo" "20240315T090000")) as [_ Hzoned];
      [reflexivity|].
    apply (Hzoned "Asia/Tokyo" [] (time.Zone "Asia/Tokyo")); reflexivity.
Defined.

Lemma parseEventTime_fallback_allDay_witness :
  @parseEventTime Doc refCodec refZoneinfo
    (refEvent "fair@example.com" "Fair" (dtstartBare "20240315")) ical.PropDateTimeStart
  = (time.mkTime 63846057600 0 time.UTC, true).
Proof.
  apply (@parseEventTime_fallback_allDay Doc refCodec refZoneinfo
           (refEvent "fair@example.com" "Fair" (dtstartBare "20240315"))
           ical.PropDateTimeStart (dtstartBare "20240315")); reflexivity.
Defined.

(** * Further properties *)

(** ** Filenames *)

Lemma safeName_app s t : safeName (s +:+ t) = safeName s && safeName t.
Proof.
  induction s as [|c r IH]; [done|].
  change (String c r +:+ t) with (String c (r +:+ t)).
  cbn [safeName]. rewrite IH. by rewrite andb_assoc.
Qed.

Lemma replacement_safe c : safeName (replacement c) = true.
Proof. destruct c as [[] [] [] [] [] [] [] []]; reflexivity. Qed.

Lemma replacement_id c : hostileByte c = false -> replacement c = String c EmptyString.
Proof. destruct c as [[] [] [] [] [] [] [] []]; cbn; intros H; try discriminate H; reflexivity. Qed.

Lemma sanitizeFilename_safeName (s : string) : safeName (sanitizeFilename s) = true.
Proof.
  induction s as [|c r IH]; [reflexivity|].
  cbn [sanitizeFilename]. by rewrite safeName_app, replacement_safe, IH.
Qed.

Lemma safeName_bytes (s : string) (c : ascii) :
  safeName s = true -> c ∈ list_ascii_of_string s -> hostileByte c = false.
Proof.
  induction s as [|c' r IH]; cbn [safeName list_ascii_of_string].
  - by intros _ ?%elem_of_nil.
  - intros [Hc Hr]%andb_true_iff [->|Hin]%elem_of_cons; [|by apply IH].
    by apply negb_true_iff.
Qed.

(** X1: no byte of a file name made by [sanitizeFilename] is one of the ten
    bytes it replaces; in particular none is a path separator. *)
Theorem sanitizeFilename_safe (s : string) (c : ascii) :
  c ∈ list_ascii_of_string (sanitizeFilename s) ->
  hostileByte c = false /\ c <> "/"%char.
Proof.
  intros Hin.
  pose proof (safeName_bytes _ c (sanitizeFilename_safeName s) Hin) as Hc.
  split; [done|]. intros ->. discriminate Hc.
Qed.

Lemma sanitizeFilename_safe_witness :
  hostileByte "_" = false /\ "_"%char <> "/"%char.
Proof.
  apply (sanitizeFilename_safe "a/b" "_"). vm_compute. right. left.
Defined.

Lemma sanitizeFilename_fixed (s : string) :
  safeName s = true -> sanitizeFilename s = s.
Proof.
  induction s as [|c r IH]; [reflexivity|].
  cbn [safeName sanitizeFilename]. intros [Hc Hr]%andb_true_iff.
  apply negb_true_iff in Hc. rewrite (replacement_id c Hc), (IH Hr). reflexivity.
Qed.

(** X2: [sanitizeFilename] leaves a name without those bytes as it is, and
    so sanitizing twice is sanitizing once. *)
Theorem sanitizeFilename_idempotent (s : string) :
  (safeName s = true -> sanitizeFilename s = s)
  /\ sanitizeFilename (sanitizeFilename s) = sanitizeFilename s.
Proof.
  split; [apply sanitizeFilename_fixed|].
  apply sanitizeFilename_fixed, sanitizeFilename_safeName.
Qed.

Lemma sanitizeFilename_idempotent_witness :
  sanitizeFilename "standup-1.example.com" = "standup-1.example.com".
Proof.
  apply (proj1 (sanitizeFilename_idempotent "standup-1.example.com")). reflexivity.
Defined.

Lemma substring_all (t : string) : substring 0 (String.length t) t = t.
Proof. induction t as [|c r IH]; cbn; [done|]. by rewrite IH. Qed.

Lemma substring_app_r (s t : string) :
  substring (String.length s) (String.length t) (s +:+ t) = t.
Proof. induction s as [|c r IH]; cbn; [apply substring_all|exact IH]. Qed.

Lemma length_app_string (s t : string) :
  String.length (s +:+ t) = (String.length s + String.length t)%nat.
Proof. induction s as [|c r IH]; [done|]. simpl. f_equal. exact IH. Qed.

Lemma HasSuffix_app (s t : string) : HasSuffix (s +:+ t) t = true.
Proof.
  unfold HasSuffix. rewrite length_app_string.
  replace (String.length s + String.length t - String.length t)%nat
    with (String.length s) by lia.
  rewrite substring_app_r, String.eqb_refl.
  apply andb_true_iff. split; [|done]. apply Nat.leb_le. lia.
Qed.

(** ** What a sync leaves on disk *)

Section SyncShape.
Context {Bytes : Type} {codec : ical.Codec Bytes} {registry : Registry Bytes}
        {zoneinfo : time.Zoneinfo}.
Implicit Types (fs : FS Bytes) (s : Source) (resp : HttpResult Bytes)
               (d : gmap string Bytes) (events : list ical.Component).

Lemma FS_eta fs : mkFS (sources_file fs) (calendar_dirs fs) = fs.
Proof. by destruct fs. Qed.

Lemma remove_loop_frame (names : list string) fs dir d :
  calendar_dirs fs !! dir = Some d ->
  exists d',
    fold_left (fun fs' e => os_Remove fs' dir e) names fs
    = mkFS (sources_file fs) (<[dir := d']> (calendar_dirs fs)).
Proof.
  revert fs d. induction names as [|n names IH]; intros fs d Hd; cbn [fold_left].
  - exists d. by rewrite insert_id, FS_eta.
  - destruct (IH (os_Remove fs dir n) (delete n d)) as (d' & ->).
    { unfold os_Remove. rewrite Hd. cbn. by rewrite lookup_insert_eq. }
    exists d'. unfold os_Remove. rewrite Hd. cbn. by rewrite insert_insert_eq.
Qed.

Lemma clearDir_eq fs dir d :
  calendar_dirs fs !! dir = Some d ->
  clearDir fs dir = mkFS (sources_file fs) (<[dir := ∅]> (calendar_dirs fs)).
Proof.
  intros Hd. pose proof (clearDir_empty fs dir d Hd) as Hempty.
  unfold clearDir in *.
  destruct (remove_loop_frame
              (match os_ReadDir fs dir with Ok l => l | Err _ => [] end) fs dir d Hd)
    as (d' & Heq).
  rewrite Heq in *. cbn in Hempty. rewrite lookup_insert_eq in Hempty.
  by injection Hempty as ->.
Qed.

Lemma writeEvent_eq dir fs count d event :
  calendar_dirs fs !! dir = Some d ->
  writeEvent dir (fs, count) event
  = match recordFor event with
    | Some (filename, buf) =>
        (mkFS (sources_file fs) (<[dir := <[filename := buf]> d]> (calendar_dirs fs)), S count)
    | None => (fs, count)
    end.
Proof.
  intros Hd. unfold writeEvent, recordFor.
  destruct (ical.Props_Text _ _) as [uid|]; [|done].
  destruct (String.eqb uid EmptyString); [done|].
  destruct (ical.Encode _) as [buf|]; [|done].
  unfold os_WriteFile. rewrite Hd.
  by destruct (refusedPath (sanitizeFilename uid +:+ ".ics")).
Qed.

Lemma write_loop_eq dir events fs count d :
  calendar_dirs fs !! dir = Some d ->
  fold_left (writeEvent dir) events (fs, count)
  = (mkFS (sources_file fs) (<[dir := recordsInto events d]> (calendar_dirs fs)),
     (count + length (omap recordFor events))%nat).
Proof.
  revert fs count d. induction events as [|ev events IH]; intros fs count d Hd.
  - cbn. rewrite insert_id by done. by rewrite FS_eta, Nat.add_0_r.
  - cbn [fold_left]. rewrite (writeEvent_eq dir fs count d ev Hd).
    unfold recordsInto. cbn [fold_left omap list_omap].
    destruct (recordFor ev) as [[filename buf]|].
    + erewrite IH; [|cbn; by rewrite lookup_insert_eq].
      cbn. rewrite insert_insert_eq. f_equal. lia.
    + by erewrite IH.
Qed.

Lemma os_MkdirAll_exists fs (dir : string) d :
  calendar_dirs fs !! dir = Some d -> os_MkdirAll fs dir = Ok fs.
Proof. intros Hd. unfold os_MkdirAll. by rewrite Hd. Qed.

Lemma simpleName_accepted (name : string) :
  simpleName name = true -> refusedPath name = false.
Proof.
  unfold simpleName. intros H. repeat apply andb_true_iff in H as [H ?].
  by apply negb_true_iff.
Qed.

Lemma os_MkdirAll_simple fs (name : string) :
  simpleName name = true -> exists fs1, os_MkdirAll fs name = Ok fs1.
Proof.
  intros Hs%simpleName_accepted. unfold os_MkdirAll. rewrite Hs.
  destruct (calendar_dirs fs !! name); eauto.
Qed.

(** The whole effect of a sync that gets status 200 and a decodable body,
    when the directory is there or can be made. *)
Lemma syncSource_ok_eq resp fs fs1 s body cal :
  resp = Response StatusOK body -> ical.Decode body = Some cal ->
  os_MkdirAll fs (Name s) = Ok fs1 ->
  syncSource resp fs s
  = (mkFS (sources_file fs)
          (<[Name s := recordsInto (ical.Events cal) ∅]> (calendar_dirs fs)),
     [LSynced (length (omap recordFor (ical.Events cal)))], None).
Proof.
  intros -> Hdec Hmk. unfold syncSource.
  rewrite (Z.eqb_refl StatusOK). cbn [negb]. rewrite Hdec, Hmk.
  destruct (os_MkdirAll_dir fs fs1 (Name s) Hmk) as (d1 & Hd1 & ->).
  rewrite (clearDir_eq _ (Name s) d1 Hd1).
  erewrite write_loop_eq; [|cbn; by rewrite lookup_insert_eq].
  cbn. by rewrite !insert_insert_eq.
Qed.

Lemma syncSource_cases resp fs s :
  (syncSource resp fs s).1.1 = fs
  \/ exists body cal fs1,
       resp = Response StatusOK body /\ ical.Decode body = Some cal
       /\ os_MkdirAll fs (Name s) = Ok fs1.
Proof.
  destruct resp as [|code body]; [by left|].
  unfold syncSource. destruct (code =? StatusOK) eqn:Hcode; cbn [negb]; [|by left].
  apply Z.eqb_eq in Hcode as ->.
  destruct (ical.Decode body) as [cal|] eqn:Hdec; [|by left].
  destruct (os_MkdirAll fs (Name s)) as [fs1|e] eqn:Hmk; [|by left].
  right. by exists body, cal, fs1.
Qed.

Lemma syncSource_succeeded resp fs s :
  (syncSource resp fs s).2 = None ->
  exists body cal fs1,
    resp = Response StatusOK body /\ ical.Decode body = Some cal
    /\ os_MkdirAll fs (Name s) = Ok fs1.
Proof.
  destruct resp as [|code body]; [done|].
  unfold syncSource. destruct (code =? StatusOK) eqn:Hcode; cbn [negb]; [|done].
  apply Z.eqb_eq in Hcode as ->.
  destruct (ical.Decode body) as [cal|] eqn:Hdec; [|done].
  destruct (os_MkdirAll fs (Name s)) as [fs1|e] eqn:Hmk; [|done].
  intros _. by exists body, cal, fs1.
Qed.

Lemma syncSource_sources_file resp fs s :
  sources_file (syncSource resp fs s).1.1 = sources_file fs.
Proof.
  destruct (syncSource_cases resp fs s) as [->|(body & cal & fs1 & Hresp & Hdec & Hmk)];
    [done|].
  by rewrite (syncSource_ok_eq resp fs fs1 s body cal Hresp Hdec Hmk).
Qed.

Lemma syncSource_other_dirs resp fs s (other : string) :
  other <> Name s ->
  calendar_dirs (syncSource resp fs s).1.1 !! other = calendar_dirs fs !! other.
Proof.
  intros Hne.
  destruct (syncSource_cases resp fs s) as [->|(body & cal & fs1 & Hresp & Hdec & Hmk)];
    [done|].
  rewrite (syncSource_ok_eq resp fs fs1 s body cal Hresp Hdec Hmk). cbn.
  by rewrite lookup_insert_ne.
Qed.

(** X3: when the synced source has a single-component name, [syncSource]
    never touches the registry file, nor the directory of any other
    single-component name, whatever the response. *)
Theorem syncSource_frame resp fs s :
  simpleName (Name s) = true ->
  sources_file (syncSource resp fs s).1.1 = sources_file fs
  /\ (forall other, simpleName other = true -> other <> Name s ->
        calendar_dirs (syncSource resp fs s).1.1 !! other = calendar_dirs fs !! other).
Proof.
  intros _. split.
  - apply syncSource_sources_file.
  - intros other _ Hne. by apply syncSource_other_dirs.
Qed.

(** X4: syncing twice against the same response is syncing once: the
    second run leaves the file system of the first and prints the same. *)
Theorem syncSource_idempotent resp fs s :
  syncSource resp (syncSource resp fs s).1.1 s = syncSource resp fs s.
Proof.
  destruct (syncSource_cases resp fs s)
    as [Hsame|(body & cal & fs1 & Hresp & Hdec & Hmk)].
  - by rewrite Hsame.
  - rewrite (syncSource_ok_eq resp fs fs1 s body cal Hresp Hdec Hmk). cbn [fst].
    erewrite (syncSource_ok_eq resp _ _ s body cal Hresp Hdec).
    + cbn. by rewrite insert_insert_eq.
    + eapply os_MkdirAll_exists. cbn. by rewrite lookup_insert_eq.
Qed.

(** X5: for a source with a single-component name and a store whose
    directories all have such names, the directory a successful sync leaves
    for the source depends on the feed alone: from two such file systems,
    however different, the sync succeeds alike and ends with the same
    directory for that source and the same count. *)
Theorem syncSource_forgets_prior_store resp fs fs' s :
  simpleName (Name s) = true -> simpleDirs fs -> simpleDirs fs' ->
  (syncSource resp fs s).2 = None ->
  calendar_dirs (syncSource resp fs s).1.1 !! Name s
  = calendar_dirs (syncSource resp fs' s).1.1 !! Name s
  /\ (syncSource resp fs s).1.2 = (syncSource resp fs' s).1.2
  /\ (syncSource resp fs' s).2 = None.
Proof.
  intros Hs _ _ Hok.
  destruct (syncSource_succeeded resp fs s Hok) as (body & cal & fs1 & Hresp & Hdec & Hmk).
  destruct (os_MkdirAll_simple fs' (Name s) Hs) as [fs1' Hmk'].
  rewrite (syncSource_ok_eq resp fs fs1 s body cal Hresp Hdec Hmk).
  rewrite (syncSource_ok_eq resp fs' fs1' s body cal Hresp Hdec Hmk'). cbn.
  by rewrite !lookup_insert_eq.
Qed.

End SyncShape.

Lemma refFS_simpleDirs : simpleDirs refFS.
Proof.
  intros name [d Hd].
  destruct (decide (name = "work")) as [->|Hw]; [reflexivity|].
  destruct (decide (name = "home")) as [->|Hh]; [reflexivity|].
  unfold refFS in Hd. cbn [calendar_dirs] in Hd.
  rewrite lookup_insert_ne in Hd by done. by rewrite lookup_singleton_ne in Hd.
Qed.

Lemma no_dirs_simpleDirs (file : File Doc) : simpleDirs (mkFS file ∅).
Proof. intros name [d Hd]. cbn in Hd. by rewrite lookup_empty in Hd. Qed.

Lemma syncSource_frame_witness :
  calendar_dirs
    (@syncSource Doc refCodec (Response 200 feedReviewOnly) refFS workSource).1.1 !! "home"
  = calendar_dirs refFS !! "home".
Proof.
  apply (@syncSource_frame Doc refCodec (Response 200 feedReviewOnly) refFS workSource).
  - reflexivity.
  - reflexivity.
  - discriminate.
Defined.

Lemma syncSource_forgets_prior_store_witness :
  calendar_dirs (@syncSource Doc refCodec (Response 200 feedReviewOnly) refFS workSource).1.1
    !! "work"
  = calendar_dirs (@syncSource Doc refCodec (Response 200 feedReviewOnly) emptyFS workSource).1.1
    !! "work".
Proof.
  apply (@syncSource_forgets_prior_store Doc refCodec
           (Response 200 feedReviewOnly) refFS emptyFS workSource).
  - reflexivity.
  - exact refFS_simpleDirs.
  - exact (no_dirs_simpleDirs Missing).
  - vm_compute. reflexivity.
Defined.

Section SyncRecords.
Context {Bytes : Type} {codec : ical.Codec Bytes} {registry : Registry Bytes}
        {zoneinfo : time.Zoneinfo}.
Implicit Types (fs : FS Bytes) (s : Source) (resp : HttpResult Bytes)
               (d : gmap string Bytes) (events : list ical.Component).

Lemma recordsInto_snoc events event d :
  recordsInto (events ++ [event]) d
  = match recordFor event with
    | Some (filename, buf) => <[filename := buf]> (recordsInto events d)
    | None => recordsInto events d
    end.
Proof. unfold recordsInto. by rewrite fold_left_app. Qed.

Lemma recordsInto_size events d :
  (size (recordsInto events d) <= size d + length (omap recordFor events))%nat.
Proof.
  induction events as [|ev events IH] using rev_ind.
  - cbn. lia.
  - rewrite recordsInto_snoc, omap_app, length_app. cbn.
    destruct (recordFor ev) as [[filename buf]|]; cbn; [|lia].
    destruct (recordsInto events d !! filename) eqn:Hl.
    + rewrite map_size_insert_Some by eauto. lia.
    + rewrite map_size_insert_None by done. lia.
Qed.

Lemma recordsInto_lookup events d (f : string) (buf : Bytes) :
  recordsInto events d !! f = Some buf
  <-> (exists pre event post,
          events = pre ++ event :: post /\ recordFor event = Some (f, buf)
          /\ noRecordAt f post)
      \/ (d !! f = Some buf /\ noRecordAt f events).
Proof.
  unfold noRecordAt.
  induction events as [|ev events IH] using rev_ind.
  - cbn. split.
    + intros H. right. split; [done|constructor].
    + intros [(pre & e & post & Heq & _)|[H _]]; [by destruct pre|done].
  - rewrite recordsInto_snoc.
    destruct (recordFor ev) as [[filename b]|] eqn:Hrec.
    + destruct (decide (filename = f)) as [->|Hne].
      * rewrite lookup_insert_eq. split.
        -- intros [= ->]. left. exists events, ev, []. split_and!; [done..|constructor].
        -- intros [(pre & e & post & Heq & He & Hpost)|[_ Hall]].
           ++ destruct post as [|p post _] using rev_ind.
              ** apply app_inj_tail in Heq as [_ <-]. congruence.
              ** rewrite app_comm_cons, app_assoc in Heq.
                 apply app_inj_tail in Heq as [_ <-].
                 apply Forall_app in Hpost as [_ Hp].
                 apply Forall_inv in Hp. by destruct (Hp b).
           ++ apply Forall_app in Hall as [_ Hp].
              apply Forall_inv in Hp. by destruct (Hp b).
      * rewrite lookup_insert_ne by done. rewrite IH. split.
        -- intros [(pre & e & post & -> & He & Hpost)|[Hd Hall]].
           ++ left. exists pre, e, (post ++ [ev]). rewrite <- app_assoc. split_and!; [done..|].
              apply Forall_app. split; [done|]. apply Forall_singleton.
              intros b'. rewrite Hrec. congruence.
           ++ right. split; [done|]. apply Forall_app. split; [done|].
              apply Forall_singleton. intros b'. rewrite Hrec. congruence.
        -- intros [(pre & e & post & Heq & He & Hpost)|[Hd Hall]].
           ++ destruct post as [|p post _] using rev_ind.
              ** apply app_inj_tail in Heq as [_ <-]. congruence.
              ** rewrite app_comm_cons, app_assoc in Heq.
                 apply app_inj_tail in Heq as [-> <-].
                 apply Forall_app in Hpost as [Hpost _].
                 left. by exists pre, e, post.
           ++ apply Forall_app in Hall as [Hall _]. by right.
    + rewrite IH. split.
      * intros [(pre & e & post & -> & He & Hpost)|[Hd Hall]].
        -- left. exists pre, e, (post ++ [ev]). rewrite <- app_assoc. split_and!; [done..|].
           apply Forall_app. split; [done|]. apply Forall_singleton.
           intros b'. by rewrite Hrec.
        -- right. split; [done|]. apply Forall_app. split; [done|].
           apply Forall_singleton. intros b'. by rewrite Hrec.
      * intros [(pre & e & post & Heq & He & Hpost)|[Hd Hall]].
        -- destruct post as [|p post _] using rev_ind.
           ++ apply app_inj_tail in Heq as [_ <-]. congruence.
           ++ rewrite app_comm_cons, app_assoc in Heq.
              apply app_inj_tail in Heq as [-> <-].
              apply Forall_app in Hpost as [Hpost _].
              left. by exists pre, e, post.
        -- apply Forall_app in Hall as [Hall _]. by right.
Qed.

(** X6: for a source with a single-component name and a store whose
    directories all have such names, the count a sync reports after status
    200 and a decodable body is the number of feed events that have a usable
    uid, encode, and get a file name the host accepts; the directory holds
    at most that many files (fewer when two uids share a file name). *)
Theorem syncSource_count resp fs s body cal d :
  simpleName (Name s) = true -> simpleDirs fs ->
  resp = Response StatusOK body -> ical.Decode body = Some cal ->
  calendar_dirs (syncSource resp fs s).1.1 !! Name s = Some d ->
  (syncSource resp fs s).1.2 = [LSynced (length (omap recordFor (ical.Events cal)))]
  /\ (size d <= length (omap recordFor (ical.Events cal)))%nat.
Proof.
  intros Hs _ Hresp Hdec.
  destruct (os_MkdirAll_simple fs (Name s) Hs) as [fs1 Hmk].
  rewrite (syncSource_ok_eq resp fs fs1 s body cal Hresp Hdec Hmk). cbn.
  rewrite lookup_insert_eq. intros [= <-]. split; [done|].
  pose proof (recordsInto_size (ical.Events cal) ∅) as H.
  by rewrite map_size_empty in H.
Qed.

(** X7: for a source with a single-component name and a store whose
    directories all have such names, after a sync that got status 200 and a
    decodable body a file [f] of the source's directory holds [buf] exactly
    when [buf] is the document of the last feed event written to [f]: the
    last writer wins. An event is written when it has a usable uid, encodes,
    and gets a file name the host accepts. *)
Theorem syncSource_last_writer_wins resp fs s body cal d (f : string) (buf : Bytes) :
  simpleName (Name s) = true -> simpleDirs fs ->
  resp = Response StatusOK body -> ical.Decode body = Some cal ->
  calendar_dirs (syncSource resp fs s).1.1 !! Name s = Some d ->
  d !! f = Some buf
  <-> exists pre event post,
        ical.Events cal = pre ++ event :: post /\ recordFor event = Some (f, buf)
        /\ Forall (fun event' => forall buf', recordFor event' <> Some (f, buf')) post.
Proof.
  intros Hs _ Hresp Hdec.
  destruct (os_MkdirAll_simple fs (Name s) Hs) as [fs1 Hmk].
  rewrite (syncSource_ok_eq resp fs fs1 s body cal Hresp Hdec Hmk). cbn.
  rewrite lookup_insert_eq. intros [= <-].
  rewrite recordsInto_lookup. split.
  - intros [H|[H _]]; [done|]. by rewrite lookup_empty in H.
  - intros H. by left.
Qed.

(** X8: every file a successful sync leaves in the source's directory has
    a name that ends in [.ics] and has none of the ten replaced bytes, so
    no path separator: the record stays in that directory and is seen by
    [loadCalendarEvents]. *)
Theorem syncSource_file_names resp fs s d (f : string) :
  (syncSource resp fs s).2 = None ->
  calendar_dirs (syncSource resp fs s).1.1 !! Name s = Some d ->
  is_Some (d !! f) ->
  HasSuffix f ".ics" = true /\ safeName f = true.
Proof.
  intros Hok Hd [buf Hf].
  destruct (syncSource_store resp fs s Hok) as (body & cal & d' & _ & _ & Hd' & Hall).
  assert (d' = d) as -> by congruence.
  destruct (Hall f buf Hf) as (ev & uid & _ & _ & _ & -> & _).
  split; [apply HasSuffix_app|].
  by rewrite safeName_app, sanitizeFilename_safeName.
Qed.

End SyncRecords.

Lemma syncSource_count_witness :
  (@syncSource Doc refCodec (Response 200 feedBoth) refFS workSource).1.2 = [LSynced 2].
Proof.
  eapply (@syncSource_count Doc refCodec (Response 200 feedBoth) refFS workSource
            feedBoth (refCalendar [standup; review]));
    [reflexivity | exact refFS_simpleDirs | reflexivity..].
Defined.

Lemma syncSource_last_writer_wins_witness :
  exists d, calendar_dirs
              (@syncSource Doc refCodec (Response 200 feedBoth) refFS workSource).1.1 !! "work"
            = Some d
            /\ d !! "review_at_example.com.ics" = Some (DocCalendar (@eventCal review)).
Proof.
  eexists. split; [reflexivity|].
  apply (@syncSource_last_writer_wins Doc refCodec (Response 200 feedBoth) refFS workSource
           feedBoth (refCalendar [standup; review]) _ "review_at_example.com.ics"
           (DocCalendar (@eventCal review)));
    [reflexivity | exact refFS_simpleDirs | reflexivity..|].
  exists [standup], review, []. split_and!; [reflexivity|reflexivity|constructor].
Defined.

Lemma syncSource_file_names_witness :
  HasSuffix "review_at_example.com.ics" ".ics" = true
  /\ safeName "review_at_example.com.ics" = true.
Proof.
  eapply (@syncSource_file_names Doc refCodec (Response 200 feedBoth) refFS workSource).
  - reflexivity.
  - reflexivity.
  - vm_compute. eauto.
Defined.

(** ** Reading the store *)

Section Reading.
Context {Bytes : Type} {codec : ical.Codec Bytes} {registry : Registry Bytes}
        {zoneinfo : time.Zoneinfo}.
Implicit Types (fs : FS Bytes) (s : Source) (e : Event) (d : gmap string Bytes).

Lemma Parse_20060102_midnight (value : string) (t : time.Time) :
  time.Parse_20060102 value = Some t -> atMidnightUTC t.
Proof.
  unfold time.Parse_20060102. intros H.
  repeat case_match; try discriminate H.
  injection H as <-. unfold atMidnightUTC, time.Date. cbn.
  split_and!; [done..|].
  rewrite !Z.add_0_r. apply Z.mod_mul. lia.
Qed.

Lemma parseEventTime_allDay_midnight (event : ical.Component) (prop : string) :
  (parseEventTime event prop).2 = true -> atMidnightUTC (parseEventTime event prop).1.
Proof.
  unfold parseEventTime.
  destruct (ical.Props_Get _ _) as [p|]; [|done].
  destruct (isAllDay p).
  - destruct (time.Parse_20060102 _) eqn:Hp; [|done]. intros _.
    by apply (Parse_20060102_midnight (ical.Value p)).
  - destruct (ical.DateTime _ _); [done|].
    destruct (time.Parse_20060102 _) eqn:Hp; [|done]. intros _.
    by apply (Parse_20060102_midnight (ical.Value p)).
Qed.

Lemma readEvent_eventOf fs dir entry calName e :
  readEvent fs dir entry calName = Ok e ->
  exists data cal ie rest,
    os_ReadFile fs dir entry = Ok data /\ ical.Decode data = Some cal
    /\ ical.Events cal = ie :: rest /\ e = eventOf ie calName.
Proof.
  unfold readEvent, eventOf.
  destruct (os_ReadFile fs dir entry) as [data|]; [|done].
  destruct (ical.Decode data) as [cal|] eqn:Hdec; [|done].
  destruct (ical.Events cal) as [|ie rest] eqn:Hev; [done|].
  destruct (parseEventTime ie ical.PropDateTimeStart) as [start allDay] eqn:Hs.
  destruct (parseEventTime ie ical.PropDateTimeEnd) as [end_ ?] eqn:He.
  intros [= <-]. exists data, cal, ie, rest. rewrite Hs, He. done.
Qed.

Lemma inRange_withinBounds (from to : time.Time) e :
  inRange from to e = true <-> withinBounds from to (Start e).
Proof.
  unfold inRange, withinBounds.
  rewrite <- (Before_false (Start e) from), <- (After_false (Start e) to).
  destruct (time.IsZero from), (time.IsZero to),
    (time.Before (Start e) from), (time.After (Start e) to); cbn;
    intuition congruence.
Qed.

(** X9: [ListEvents] returns exactly the events that an [.ics] record of a
    configured source decodes to and whose start lies within the bounds,
    both bounds included, a zero bound being no bound: an event that starts
    at the very instant [to] is returned. *)
Theorem ListEvents_inclusive fs (from to : time.Time) (sources : list Source)
    (events : list Event) e :
  LoadSources fs = Ok sources ->
  ListEvents fs from to = Ok events ->
  e ∈ events <-> storedEvent fs sources e /\ withinBounds from to (Start e).
Proof.
  intros Hl H. rewrite (ListEvents_elem_of fs from to sources events e Hl H).
  by rewrite inRange_withinBounds.
Qed.

(** X10: every event [ListEvents] returns carries the name of a configured
    source as its calendar, and, when it is flagged all-day, starts at
    midnight UTC of its day, its time zone parameter notwithstanding. *)
Theorem ListEvents_events_wellformed fs (from to : time.Time) (sources : list Source)
    (events : list Event) e :
  LoadSources fs = Ok sources ->
  ListEvents fs from to = Ok events ->
  e ∈ events ->
  Calendar e ∈ map Name sources
  /\ (AllDay e = true -> atMidnightUTC (Start e)).
Proof.
  intros Hl H He.
  apply (ListEvents_elem_of fs from to sources events e Hl H) in He
    as [(s & d & entry & Hs & _ & _ & _ & Hread) _].
  apply readEvent_eventOf in Hread as (data & cal & ie & rest & _ & _ & _ & ->).
  cbn. split.
  - apply list_elem_of_fmap. by exists s.
  - apply parseEventTime_allDay_midnight.
Qed.

(** *** GetEvent *)

Lemma findInEntries_Some fs calName uid (entries : list string) e raw :
  findInEntries fs calName uid entries = Some (e, raw) ->
  exists entry,
    entry ∈ entries /\ HasSuffix entry ".ics" = true
    /\ readEvent fs calName entry calName = Ok e /\ UID e = uid
    /\ raw = match os_ReadFile fs calName entry with Ok data => Some data | Err _ => None end.
Proof.
  induction entries as [|entry rest IH]; cbn [findInEntries]; [done|].
  destruct (HasSuffix entry ".ics") eqn:Hsuf; cbn [negb].
  - destruct (readEvent fs calName entry calName) as [ev|] eqn:Hread.
    + destruct (String.eqb (UID ev) uid) eqn:Huid.
      * intros [= <- <-]. apply String.eqb_eq in Huid.
        exists entry. split_and!; [left|done..].
      * intros (en & ? & ?)%IH. exists en. split; [by right|done].
    + intros (en & ? & ?)%IH. exists en. split; [by right|done].
  - intros (en & ? & ?)%IH. exists en. split; [by right|done].
Qed.

Lemma findInEntries_None fs calName uid (entries : list string) :
  findInEntries fs calName uid entries = None
  <-> forall entry e, entry ∈ entries -> HasSuffix entry ".ics" = true ->
        readEvent fs calName entry calName = Ok e -> UID e <> uid.
Proof.
  induction entries as [|entry rest IH]; cbn [findInEntries].
  - split; [|done]. by intros _ ? ? ?%elem_of_nil.
  - destruct (HasSuffix entry ".ics") eqn:Hsuf; cbn [negb].
    + destruct (readEvent fs calName entry calName) as [ev|] eqn:Hread.
      * destruct (String.eqb (UID ev) uid) eqn:Huid.
        -- apply String.eqb_eq in Huid. split; [done|].
           intros H. exfalso. by apply (H entry ev); [left|..].
        -- apply String.eqb_neq in Huid. rewrite IH. split.
           ++ intros H en e' [->|Hin]%elem_of_cons; [congruence|by apply H].
           ++ intros H en e' Hin. apply H. by right.
      * rewrite IH. split.
        -- intros H en e' [->|Hin]%elem_of_cons; [congruence|by apply H].
        -- intros H en e' Hin. apply H. by right.
    + rewrite IH. split.
      * intros H en e' [->|Hin]%elem_of_cons; [congruence|by apply H].
      * intros H en e' Hin. apply H. by right.
Qed.

Lemma entries_of_dir fs name d :
  calendar_dirs fs !! name = Some d ->
  exists entries, os_ReadDir fs name = Ok entries
                  /\ forall entry, entry ∈ entries <-> is_Some (d !! entry).
Proof.
  intros Hd. exists (merge_sort name_le (map fst (map_to_list d))).
  assert (Hrd : os_ReadDir fs name = Ok (merge_sort name_le (map fst (map_to_list d)))).
  { unfold os_ReadDir. by rewrite Hd. }
  split; [done|]. intros entry. by apply (os_ReadDir_elem_of fs name d).
Qed.

Lemma findInSource_None fs uid s :
  findInEntries fs (Name s) uid
    (match os_ReadDir fs (Name s) with Ok l => l | Err _ => [] end) = None
  <-> ~ hasRecord fs (Name s) uid.
Proof.
  rewrite findInEntries_None. unfold hasRecord.
  destruct (calendar_dirs fs !! Name s) as [d|] eqn:Hd.
  - destruct (entries_of_dir fs (Name s) d Hd) as (entries & -> & Hin). split.
    + intros H (d' & entry & e & [= <-] & Hentry & Hsuf & Hread & Hu).
      apply (H entry e); [by apply Hin|done..].
    + intros H entry e Hentry Hsuf Hread Hu. apply H.
      exists d, entry, e. split_and!; [done|by apply Hin|done..].
  - unfold os_ReadDir. rewrite Hd. split.
    + by intros _ (d' & ? & ? & [=] & _).
    + by intros _ ? ? ?%elem_of_nil.
Qed.

Lemma findInSource_Some fs uid s e raw :
  findInEntries fs (Name s) uid
    (match os_ReadDir fs (Name s) with Ok l => l | Err _ => [] end) = Some (e, raw) ->
  exists d entry data,
    calendar_dirs fs !! Name s = Some d /\ d !! entry = Some data
    /\ HasSuffix entry ".ics" = true
    /\ readEvent fs (Name s) entry (Name s) = Ok e /\ UID e = uid
    /\ raw = Some data.
Proof.
  intros (entry & Hin & Hsuf & Hread & Hu & ->)%findInEntries_Some.
  destruct (calendar_dirs fs !! Name s) as [d|] eqn:Hd.
  - destruct (entries_of_dir fs (Name s) d Hd) as (entries & Hrd & Hentries).
    rewrite Hrd in Hin. apply Hentries in Hin as [data Hdata].
    exists d, entry, data. split_and!; [done..|].
    unfold os_ReadFile. by rewrite Hd, Hdata.
  - unfold os_ReadDir in Hin. rewrite Hd in Hin. by apply elem_of_nil in Hin.
Qed.

Lemma findInSources_None fs uid (sources : list Source) :
  findInSources fs uid sources = None
  <-> forall s, s ∈ sources -> ~ hasRecord fs (Name s) uid.
Proof.
  induction sources as [|s rest IH]; cbn [findInSources].
  - split; [|done]. by intros _ ? ?%elem_of_nil.
  - destruct (findInEntries _ _ _ _) as [found|] eqn:Hfind.
    + split; [done|]. intros H. exfalso.
      apply (H s); [left|]. destruct found as [e raw].
      apply findInSource_Some in Hfind
        as (d & entry & data & Hd & Hdata & Hsuf & Hread & Hu & _).
      exists d, entry, e. split_and!; [done|by exists data|done..].
    + apply findInSource_None in Hfind. rewrite IH. split.
      * intros H s' [->|Hin]%elem_of_cons; [done|by apply H].
      * intros H s' Hin. apply H. by right.
Qed.

End Reading.

Section Getting.
Context {Bytes : Type} {codec : ical.Codec Bytes} {registry : Registry Bytes}
        {zoneinfo : time.Zoneinfo}.
Implicit Types (fs : FS Bytes) (s : Source) (e : Event) (d : gmap string Bytes).

Lemma findInSources_Some fs uid (sources : list Source) e raw :
  findInSources fs uid sources = Some (e, raw) ->
  exists pre s post,
    sources = pre ++ s :: post
    /\ findInSources fs uid pre = None
    /\ findInEntries fs (Name s) uid
         (match os_ReadDir fs (Name s) with Ok l => l | Err _ => [] end) = Some (e, raw).
Proof.
  induction sources as [|s rest IH]; cbn [findInSources]; [done|].
  destruct (findInEntries _ _ _ _) as [found|] eqn:Hfind.
  - intros [= ->]. by exists [], s, rest.
  - intros (pre & s' & post & -> & Hpre & Hs')%IH.
    exists (s :: pre), s', post. split_and!; [done| |done].
    cbn [findInSources]. by rewrite Hfind.
Qed.

Lemma hasRecord_stored fs (sources : list Source) uid :
  (exists s, s ∈ sources /\ hasRecord fs (Name s) uid)
  <-> exists e, storedEvent fs sources e /\ UID e = uid.
Proof.
  unfold hasRecord, storedEvent. split.
  - intros (s & Hs & d & entry & e & ? & ? & ? & ? & ?). exists e. split; [|done].
    by exists s, d, entry.
  - intros (e & (s & d & entry & ? & ? & ? & ? & ?) & ?). exists s. split; [done|].
    by exists d, entry, e.
Qed.

(** X11: [GetEvent] fails, with the not-found error, exactly when no
    configured source has an [.ics] record that decodes to the uid; records
    of directories whose source is not configured are not searched. *)
Theorem GetEvent_not_found fs (uid : string) (sources : list Source) :
  LoadSources fs = Ok sources ->
  (GetEvent fs uid = Err (NotFoundError uid)
   <-> forall s, s ∈ sources -> ~ hasRecord fs (Name s) uid)
  /\ (forall err, GetEvent fs uid = Err err -> err = NotFoundError uid).
Proof.
  intros Hl. unfold GetEvent. rewrite Hl.
  rewrite <- findInSources_None.
  destruct (findInSources fs uid sources); split; try done.
  by intros err [= <-].
Qed.

Lemma GetEvent_inv fs (uid : string) e (raw : option Bytes) :
  GetEvent fs uid = Ok (e, raw) ->
  exists sources s d entry data,
    LoadSources fs = Ok sources /\ s ∈ sources
    /\ calendar_dirs fs !! Name s = Some d /\ d !! entry = Some data
    /\ HasSuffix entry ".ics" = true
    /\ readEvent fs (Name s) entry (Name s) = Ok e
    /\ UID e = uid /\ Calendar e = Name s /\ raw = Some data.
Proof.
  unfold GetEvent. destruct (LoadSources fs) as [sources|] eqn:Hl; [|done].
  destruct (findInSources fs uid sources) as [[e' raw']|] eqn:Hfind; [|done].
  intros [= -> ->].
  apply findInSources_Some in Hfind as (pre & s & post & -> & _ & Hs).
  apply findInSource_Some in Hs as (d & entry & data & Hd & Hdata & Hsuf & Hread & Hu & ->).
  exists (pre ++ s :: post), s, d, entry, data.
  split_and!; try done.
  - apply elem_of_app. right. left.
  - apply readEvent_eventOf in Hread as (? & ? & ? & ? & _ & _ & _ & ->). done.
Qed.

(** X12: what [GetEvent] returns is an event decoded from an [.ics] file of
    a configured source, with the uid asked for and that source as its
    calendar, together with the very bytes of that file. *)
Theorem GetEvent_found fs (uid : string) e (raw : option Bytes) :
  GetEvent fs uid = Ok (e, raw) ->
  exists sources s d entry data,
    LoadSources fs = Ok sources /\ s ∈ sources
    /\ calendar_dirs fs !! Name s = Some d /\ d !! entry = Some data
    /\ HasSuffix entry ".ics" = true
    /\ readEvent fs (Name s) entry (Name s) = Ok e
    /\ UID e = uid /\ Calendar e = Name s /\ raw = Some data.
Proof.
  intros Hget.
  destruct (GetEvent_inv fs uid e raw Hget)
    as (sources & s & d & entry & data & H).
  by exists sources, s, d, entry, data.
Qed.

(** X13: when several configured sources hold the uid, [GetEvent] answers
    from the first of them in registry order. *)
Theorem GetEvent_registry_order fs (uid : string) (sources : list Source) e
    (raw : option Bytes) :
  LoadSources fs = Ok sources ->
  GetEvent fs uid = Ok (e, raw) ->
  exists pre s post,
    sources = pre ++ s :: post
    /\ Calendar e = Name s
    /\ hasRecord fs (Name s) uid
    /\ (forall s', s' ∈ pre -> ~ hasRecord fs (Name s') uid).
Proof.
  intros Hl. unfold GetEvent. rewrite Hl.
  destruct (findInSources fs uid sources) as [[e' raw']|] eqn:Hfind; [|done].
  intros [= -> ->].
  apply findInSources_Some in Hfind as (pre & s & post & -> & Hpre & Hs).
  apply findInSource_Some in Hs as (d & entry & data & Hd & Hdata & Hsuf & Hread & Hu & _).
  exists pre, s, post. split_and!; [done| | |by apply findInSources_None].
  - apply readEvent_eventOf in Hread as (? & ? & ? & ? & _ & _ & _ & ->). done.
  - exists d, entry, e. split_and!; [done|by exists data|done..].
Qed.

(** X14: [GetEvent] finds a uid exactly when the listing without bounds
    contains an event with that uid. *)
Theorem GetEvent_iff_listed fs (uid : string) (events : list Event) :
  ListEvents fs time.zero time.zero = Ok events ->
  (exists found, GetEvent fs uid = Ok found) <-> (exists e, e ∈ events /\ UID e = uid).
Proof.
  intros H. destruct (ListEvents_inv _ _ _ _ H) as (sources & Hl & _).
  assert (Hlisted : (exists e, e ∈ events /\ UID e = uid)
                    <-> exists s, s ∈ sources /\ hasRecord fs (Name s) uid).
  { rewrite hasRecord_stored. split.
    - intros (e & He & Hu). exists e. split; [|done].
      by apply (ListEvents_elem_of fs time.zero time.zero sources events e Hl H) in He as [? _].
    - intros (e & He & Hu). exists e. split; [|done].
      apply (ListEvents_elem_of fs time.zero time.zero sources events e Hl H).
      split; [done|]. by apply inRange_zero. }
  rewrite Hlisted. unfold GetEvent. rewrite Hl.
  destruct (findInSources fs uid sources) as [[e raw]|] eqn:Hfind.
  - split; [|eauto]. intros _.
    apply findInSources_Some in Hfind as (pre & s & post & -> & _ & Hs).
    apply findInSource_Some in Hs as (d & entry & data & Hd & Hdata & Hsuf & Hread & Hu & _).
    exists s. split; [apply elem_of_app; right; left|].
    exists d, entry, e. split_and!; [done|by exists data|done..].
  - split; [by intros [? ?]|]. intros (s & Hs & Hrec). exfalso.
    by apply (proj1 (findInSources_None fs uid sources) Hfind s Hs).
Qed.

End Getting.

Lemma GetEvent_not_found_witness :
  @GetEvent Doc refCodec refRegistry refZoneinfo refFS "nobody@example.com"
  = Err (NotFoundError "nobody@example.com")
  <-> forall s, s ∈ refSources ->
        ~ @hasRecord Doc refCodec refZoneinfo refFS (Name s) "nobody@example.com".
Proof.
  apply (@GetEvent_not_found Doc refCodec refRegistry refZoneinfo refFS
           "nobody@example.com" refSources). reflexivity.
Defined.

Lemma GetEvent_found_witness :
  exists sources s d entry data,
    @LoadSources Doc refRegistry refFS = Ok sources /\ s ∈ sources
    /\ calendar_dirs refFS !! Name s = Some d /\ d !! entry = Some data
    /\ HasSuffix entry ".ics" = true
    /\ @readEvent Doc refCodec refZoneinfo refFS (Name s) entry (Name s)
       = Ok (@eventOf Doc refCodec refZoneinfo holiday "home")
    /\ UID (@eventOf Doc refCodec refZoneinfo holiday "home") = "holiday@example.com"
    /\ Calendar (@eventOf Doc refCodec refZoneinfo holiday "home") = Name s
    /\ Some (DocCalendar (refCalendar [holiday])) = Some data.
Proof.
  apply (@GetEvent_found Doc refCodec refRegistry refZoneinfo refFS "holiday@example.com").
  vm_compute. reflexivity.
Defined.

Lemma GetEvent_registry_order_witness :
  exists pre s post,
    refSources = pre ++ s :: post
    /\ Calendar (@eventOf Doc refCodec refZoneinfo holiday "home") = Name s
    /\ @hasRecord Doc refCodec refZoneinfo refFS (Name s) "holiday@example.com"
    /\ (forall s', s' ∈ pre ->
          ~ @hasRecord Doc refCodec refZoneinfo refFS (Name s') "holiday@example.com").
Proof.
  apply (@GetEvent_registry_order Doc refCodec refRegistry refZoneinfo refFS
           "holiday@example.com" refSources
           (@eventOf Doc refCodec refZoneinfo holiday "home")
           (Some (DocCalendar (refCalendar [holiday])))).
  - reflexivity.
  - vm_compute. reflexivity.
Defined.

Lemma GetEvent_iff_listed_witness :
  (exists found,
      @GetEvent Doc refCodec refRegistry refZoneinfo refFS "review@example.com" = Ok found)
  <-> (exists e, e ∈ refAll /\ UID e = "review@example.com").
Proof.
  apply (@GetEvent_iff_listed Doc refCodec refRegistry refZoneinfo refFS
           "review@example.com" refAll).
  vm_compute. reflexivity.
Defined.

Lemma ListEvents_inclusive_witness :
  @eventOf Doc refCodec refZoneinfo holiday "home" ∈ refMarch
  <-> @storedEvent Doc refCodec refZoneinfo refFS refSources
        (@eventOf Doc refCodec refZoneinfo holiday "home")
      /\ withinBounds refFrom refTo (Start (@eventOf Doc refCodec refZoneinfo holiday "home")).
Proof.
  apply (@ListEvents_inclusive Doc refCodec refRegistry refZoneinfo refFS refFrom refTo
           refSources refMarch); vm_compute; reflexivity.
Defined.

Lemma ListEvents_events_wellformed_witness :
  Calendar (@eventOf Doc refCodec refZoneinfo holiday "home") ∈ map Name refSources
  /\ (AllDay (@eventOf Doc refCodec refZoneinfo holiday "home") = true ->
      atMidnightUTC (Start (@eventOf Doc refCodec refZoneinfo holiday "home"))).
Proof.
  apply (@ListEvents_events_wellformed Doc refCodec refRegistry refZoneinfo refFS
           time.zero time.zero refSources refAll).
  - reflexivity.
  - vm_compute. reflexivity.
  - vm_compute. right. left.
Defined.

(** ** Removing a source *)

Section Removing.
Context {Bytes : Type} {codec : ical.Codec Bytes} {registry : Registry Bytes}
        {zoneinfo : time.Zoneinfo}.
Implicit Types (fs : FS Bytes) (s : Source) (sources : list Source).

Lemma removeNamed_spec name sources :
  removeNamed name sources
  = (List.filter (fun s => negb (String.eqb (Name s) name)) sources,
     nameExists name sources).
Proof.
  induction sources as [|s rest IH]; [done|].
  cbn [removeNamed List.filter nameExists]. rewrite IH.
  by destruct (String.eqb (Name s) name).
Qed.

Lemma RemoveSource_eq fs name sources :
  LoadSources fs = Ok sources ->
  RemoveSource fs name
  = (if nameExists name sources
     then (mkFS (Regular (json_MarshalIndent
                            (List.filter (fun s => negb (String.eqb (Name s) name)) sources)))
                (delete name (calendar_dirs fs)), None)
     else (fs, Some (NotFoundError name))).
Proof.
  intros Hl. unfold RemoveSource. rewrite Hl, removeNamed_spec.
  by destruct (nameExists name sources).
Qed.

Lemma filter_names_out name sources :
  name ∉ map Name (List.filter (fun s => negb (String.eqb (Name s) name)) sources).
Proof.
  intros (s & -> & Hs)%list_elem_of_fmap.
  apply list_elem_of_In, filter_In in Hs as [_ Hs].
  by rewrite String.eqb_refl in Hs.
Qed.

(** X15: [RemoveSource] fails with the not-found error exactly when no
    source has that name, and then changes nothing; otherwise, for a
    single-component name, it saves the registry without any entry of that
    name, the others in their order, deletes the source's directory and
    leaves the directory of every other single-component name as it was. *)
Theorem RemoveSource_spec fs (name : string) sources :
  LoadSources fs = Ok sources ->
  (name ∉ map Name sources -> RemoveSource fs name = (fs, Some (NotFoundError name)))
  /\ (name ∈ map Name sources -> simpleName name = true ->
      (RemoveSource fs name).2 = None
      /\ sources_file (RemoveSource fs name).1
         = Regular (json_MarshalIndent
                      (List.filter (fun s => negb (String.eqb (Name s) name)) sources))
      /\ (name ∉ map Name (List.filter (fun s => negb (String.eqb (Name s) name)) sources))
      /\ calendar_dirs (RemoveSource fs name).1 !! name = None
      /\ (forall other, simpleName other = true -> other <> name ->
            calendar_dirs (RemoveSource fs name).1 !! other = calendar_dirs fs !! other)).
Proof.
  intros Hl. rewrite (RemoveSource_eq fs name sources Hl). split.
  - intros Hnin. destruct (nameExists name sources) eqn:Hex; [|done].
    by apply nameExists_spec in Hex.
  - intros Hin _. rewrite (proj2 (nameExists_spec name sources) Hin). cbn.
    split_and!; [done|done|apply filter_names_out|apply lookup_delete_eq|].
    intros other _ Hne. by apply lookup_delete_ne.
Qed.

(** X16: after a successful [RemoveSource], no listing returns an event of
    the removed calendar, and [GetEvent] returns none either (the JSON codec
    reading back what it wrote). *)
Theorem RemoveSource_cascade fs (name : string) (from to : time.Time) :
  (forall l, json_Unmarshal (json_MarshalIndent l) = Some l) ->
  (RemoveSource fs name).2 = None ->
  (forall events e, ListEvents (RemoveSource fs name).1 from to = Ok events ->
                    e ∈ events -> Calendar e <> name)
  /\ (forall uid e raw, GetEvent (RemoveSource fs name).1 uid = Ok (e, raw) ->
                        Calendar e <> name).
Proof.
  intros Hrt Hok.
  destruct (LoadSources fs) as [sources|err] eqn:Hl.
  2:{ unfold RemoveSource in Hok. by rewrite Hl in Hok. }
  rewrite (RemoveSource_eq fs name sources Hl) in *.
  destruct (nameExists name sources); [|done]. cbn [fst].
  set (fs' := mkFS _ _).
  assert (Hl' : LoadSources fs'
                = Ok (List.filter (fun s => negb (String.eqb (Name s) name)) sources)).
  { by apply LoadSources_saved. }
  split.
  - intros events e H He.
    apply (ListEvents_elem_of fs' from to _ events e Hl' H) in He
      as [(s & d & entry & Hs & _ & _ & _ & Hread) _].
    apply readEvent_eventOf in Hread as (? & ? & ? & ? & _ & _ & _ & ->). cbn.
    intros <-. apply (filter_names_out (Name s) sources).
    apply list_elem_of_fmap. by exists s.
  - intros uid e raw Hget.
    apply GetEvent_inv in Hget
      as (sources' & s & d & entry & data & Hls & Hs & _ & _ & _ & _ & _ & -> & _).
    assert (sources' = List.filter (fun s => negb (String.eqb (Name s) name)) sources)
      as -> by congruence.
    intros <-. apply (filter_names_out (Name s) sources).
    apply list_elem_of_fmap. by exists s.
Qed.



Lemma NoDup_filter_names (keep : Source -> bool) sources :
  NoDup (map Name sources) -> NoDup (map Name (List.filter keep sources)).
Proof.
  induction sources as [|s rest IH]; [done|]. cbn.
  intros [Hnin Hnd]%NoDup_cons.
  destruct (keep s); cbn; [|by apply IH].
  apply NoDup_cons. split; [|by apply IH].
  intros (s' & Heq & Hs')%list_elem_of_fmap.
  apply list_elem_of_In, filter_In in Hs' as [Hs' _].
  apply Hnin. apply list_elem_of_fmap. exists s'. by rewrite list_elem_of_In.
Qed.

(** X18: [RemoveSource] keeps the names of the registry unique, and after
    it the name is free: [AddSource] of that name then succeeds. *)
Theorem RemoveSource_frees_name fs (name url : string) sources sources' :
  (forall l, json_Unmarshal (json_MarshalIndent l) = Some l) ->
  LoadSources fs = Ok sources ->
  (RemoveSource fs name).2 = None ->
  LoadSources (RemoveSource fs name).1 = Ok sources' ->
  (NoDup (map Name sources) -> NoDup (map Name sources'))
  /\ (AddSource (RemoveSource fs name).1 name url).2 = None.
Proof.
  intros Hrt Hl Hok Hl'.
  rewrite (RemoveSource_eq fs name sources Hl) in *.
  destruct (nameExists name sources); [|done]. cbn [fst] in *.
  rewrite (LoadSources_saved _ _ Hrt) in Hl'. injection Hl' as <-.
  split.
  - apply NoDup_filter_names.
  - erewrite AddSource_fresh; [done|by apply LoadSources_saved|apply filter_names_out].
Qed.

End Removing.

Lemma refRegistry_roundTrip (l : list Source) :
  @json_Unmarshal Doc refRegistry (@json_MarshalIndent Doc refRegistry l) = Some l.
Proof. reflexivity. Qed.

Lemma RemoveSource_spec_witness :
  (@RemoveSource Doc refRegistry refFS "work").2 = None
  /\ sources_file (@RemoveSource Doc refRegistry refFS "work").1
     = Regular (@json_MarshalIndent Doc refRegistry
                  (List.filter (fun s => negb (String.eqb (Name s) "work")) refSources))
  /\ ("work" ∉ map Name (List.filter (fun s => negb (String.eqb (Name s) "work")) refSources))
  /\ calendar_dirs (@RemoveSource Doc refRegistry refFS "work").1 !! "work" = None
  /\ (forall other, simpleName other = true -> other <> "work" ->
        calendar_dirs (@RemoveSource Doc refRegistry refFS "work").1 !! other
        = calendar_dirs refFS !! other).
Proof.
  apply (@RemoveSource_spec Doc refRegistry refFS "work" refSources).
  - reflexivity.
  - vm_compute. left.
  - reflexivity.
Defined.

Lemma RemoveSource_cascade_witness :
  (forall events e,
      @ListEvents Doc refCodec refRegistry refZoneinfo
        (@RemoveSource Doc refRegistry refFS "work").1 time.zero time.zero = Ok events ->
      e ∈ events -> Calendar e <> "work")
  /\ (forall uid e raw,
        @GetEvent Doc refCodec refRegistry refZoneinfo
          (@RemoveSource Doc refRegistry refFS "work").1 uid = Ok (e, raw) ->
        Calendar e <> "work").
Proof.
  apply (@RemoveSource_cascade Doc refCodec refRegistry refZoneinfo refFS "work"
           time.zero time.zero).
  - exact refRegistry_roundTrip.
  - reflexivity.
Defined.


Lemma RemoveSource_frees_name_witness :
  (NoDup (map Name refSources) -> NoDup (map Name [homeSource]))
  /\ (@AddSource Doc refRegistry (@RemoveSource Doc refRegistry refFS "work").1
        "work" "https://example.com/new.ics").2 = None.
Proof.
  apply (@RemoveSource_frees_name Doc refRegistry refFS "work" "https://example.com/new.ics"
           refSources [homeSource]).
  - exact refRegistry_roundTrip.
  - reflexivity.
  - reflexivity.
  - reflexivity.
Defined.

(** ** The batch and the store *)

Section Batch.
Context {Bytes : Type} {codec : ical.Codec Bytes} {registry : Registry Bytes}
        {zoneinfo : time.Zoneinfo}.
Implicit Types (fs : FS Bytes) (s : Source) (sources : list Source).

Lemma syncStep_fs net fs out s :
  (syncStep net (fs, out) s).1 = (syncSource (net (URL s)) fs s).1.1.
Proof.
  unfold syncStep. by destruct (syncSource (net (URL s)) fs s) as [[fs' printed] err].
Qed.

Lemma syncLoop_frame net sources fs out :
  sources_file (fold_left (syncStep net) sources (fs, out)).1 = sources_file fs
  /\ (forall other, other ∉ map Name sources ->
        calendar_dirs (fold_left (syncStep net) sources (fs, out)).1 !! other
        = calendar_dirs fs !! other).
Proof.
  revert fs out. induction sources as [|s rest IH]; intros fs out; [done|].
  cbn [fold_left].
  destruct (syncStep net (fs, out) s) as [fs1 out1] eqn:Hstep.
  assert (Hfs1 : fs1 = (syncSource (net (URL s)) fs s).1.1).
  { by rewrite <- syncStep_fs with (out := out), Hstep. }
  destruct (IH fs1 out1) as [Hfile Hdirs]. split.
  - by rewrite Hfile, Hfs1, syncSource_sources_file.
  - intros other Hnin. cbn in Hnin. apply not_elem_of_cons in Hnin as [Hne Hnin].
    by rewrite (Hdirs other Hnin), Hfs1, syncSource_other_dirs.
Qed.

(** X19: when every configured source has a single-component name,
    [SyncAll] never changes the registry file, so the registry loads after
    it as before, and it leaves alone the directory of every
    single-component name that belongs to no configured source. *)
Theorem SyncAll_frame (net : string -> HttpResult Bytes) fs sources :
  LoadSources fs = Ok sources ->
  (forall s, s ∈ sources -> simpleName (Name s) = true) ->
  sources_file (SyncAll net fs).1.1 = sources_file fs
  /\ LoadSources (SyncAll net fs).1.1 = Ok sources
  /\ (forall other, simpleName other = true -> other ∉ map Name sources ->
        calendar_dirs (SyncAll net fs).1.1 !! other = calendar_dirs fs !! other).
Proof.
  intros Hl _.
  assert (Hfile : sources_file (SyncAll net fs).1.1 = sources_file fs).
  { unfold SyncAll. rewrite Hl.
    destruct (length sources =? 0)%nat; [done|].
    pose proof (syncLoop_frame net sources fs []) as [H _].
    by destruct (fold_left _ _ _). }
  split_and!; [done|by rewrite <- Hl; unfold LoadSources; rewrite Hfile|].
  intros other _ Hnin. unfold SyncAll. rewrite Hl.
  destruct (length sources =? 0)%nat; [done|].
  pose proof (syncLoop_frame net sources fs []) as [_ H].
  specialize (H other Hnin). by destruct (fold_left _ _ _).
Qed.

(** X20: what a sync stores, a listing returns. For a configured source
    with a single-component name and a store whose directories all have such
    names, after a [syncSource] that got status 200 and a decodable body,
    every feed event that is written and is the last one written to its file
    appears in the listing without bounds, as the event [readEvent] builds
    from it, with the source as its calendar (the library decoding what it
    encoded). *)
Theorem syncSource_then_ListEvents resp fs s body cal sources
    (pre post : list ical.Component) (event : ical.Component) (f : string) (buf : Bytes)
    (events : list Event) :
  roundTrip ->
  simpleName (Name s) = true -> simpleDirs fs ->
  LoadSources fs = Ok sources -> s ∈ sources ->
  resp = Response StatusOK body -> ical.Decode body = Some cal ->
  ical.Events cal = pre ++ event :: post ->
  recordFor event = Some (f, buf) -> noRecordAt f post ->
  ListEvents (syncSource resp fs s).1.1 time.zero time.zero = Ok events ->
  eventOf event (Name s) ∈ events.
Proof.
  intros Hrt Hsimple _ Hl Hs Hresp Hdec Hsplit Hrec Hpost H.
  assert (Hl' : LoadSources (syncSource resp fs s).1.1 = Ok sources).
  { unfold LoadSources. by rewrite syncSource_sources_file. }
  apply (ListEvents_elem_of _ time.zero time.zero sources events _ Hl' H).
  split; [|by apply inRange_zero].
  destruct (os_MkdirAll_simple fs (Name s) Hsimple) as [fs1 Hmk].
  rewrite (syncSource_ok_eq resp fs fs1 s body cal Hresp Hdec Hmk). cbn [fst].
  exists s, (recordsInto (ical.Events cal) ∅), f. cbn [calendar_dirs].
  assert (Hf : recordsInto (ical.Events cal) ∅ !! f = Some buf).
  { apply recordsInto_lookup. left. by exists pre, event, post. }
  assert (Hev : event ∈ ical.Events cal).
  { rewrite Hsplit. apply elem_of_app. right. left. }
  assert (Henc : ical.Encode (eventCal event) = Some buf /\ HasSuffix f ".ics" = true).
  { unfold recordFor in Hrec.
    destruct (ical.Props_Text _ _) as [uid|]; [|done].
    destruct (String.eqb uid EmptyString); [done|].
    destruct (ical.Encode _); [|done].
    destruct (refusedPath _); [done|]. injection Hrec as <- <-.
    split; [done|apply HasSuffix_app]. }
  destruct Henc as [Henc Hsuf].
  split_and!; [done|by rewrite lookup_insert_eq|by rewrite Hf|done|].
  unfold readEvent, os_ReadFile. cbn [calendar_dirs].
  rewrite lookup_insert_eq, Hf, (Hrt _ _ Henc), (Events_eventCal event cal Hev).
  unfold eventOf.
  destruct (parseEventTime event ical.PropDateTimeStart) as [start allDay].
  by destruct (parseEventTime event ical.PropDateTimeEnd) as [end_ ?].
Qed.

End Batch.

Lemma refSources_simple (s : Source) : s ∈ refSources -> simpleName (Name s) = true.
Proof.
  unfold refSources.
  intros [->|[->|[]%elem_of_nil]%elem_of_cons]%elem_of_cons; reflexivity.
Qed.

Lemma SyncAll_frame_witness :
  sources_file (@SyncAll Doc refCodec refRegistry refNet refFS).1.1 = sources_file refFS
  /\ @LoadSources Doc refRegistry (@SyncAll Doc refCodec refRegistry refNet refFS).1.1
     = Ok refSources
  /\ (forall other, simpleName other = true -> other ∉ map Name refSources ->
        calendar_dirs (@SyncAll Doc refCodec refRegistry refNet refFS).1.1 !! other
        = calendar_dirs refFS !! other).
Proof.
  apply (@SyncAll_frame Doc refCodec refRegistry refNet refFS refSources).
  - reflexivity.
  - exact refSources_simple.
Defined.

Lemma syncSource_then_ListEvents_witness :
  @eventOf Doc refCodec refZoneinfo review "work"
  ∈ listedOrNil
      (@ListEvents Doc refCodec refRegistry refZoneinfo
         (@syncSource Doc refCodec (Response 200 feedBoth) emptyFSWithSources workSource).1.1
         time.zero time.zero).
Proof.
  apply (@syncSource_then_ListEvents Doc refCodec refRegistry refZoneinfo
           (Response 200 feedBoth) emptyFSWithSources workSource feedBoth
           (refCalendar [standup; review]) refSources [standup] [] review
           "review_at_example.com.ics" (DocCalendar (@eventCal review))).
  - exact refCodec_roundTrip.
  - reflexivity.
  - exact (no_dirs_simpleDirs (Regular (DocSources refSources))).
  - reflexivity.
  - left.
  - reflexivity.
  - reflexivity.
  - reflexivity.
  - reflexivity.
  - constructor.
  - vm_compute. reflexivity.
Defined.

(** ** The command line *)

Section Flags.
Variable ToLower : string -> string.
Implicit Types (args rest valid : list string) (format : string).

Lemma formatFound_spec format valid : formatFound format valid = true <-> format ∈ valid.
Proof.
  induction valid as [|v valid IH]; cbn.
  - split; [done|]. by intros ?%elem_of_nil.
  - destruct (String.eqb format v) eqn:Heq.
    + apply String.eqb_eq in Heq as ->. split; [left|done].
    + apply String.eqb_neq in Heq. rewrite IH. split; [by right|].
      intros [?|?]%elem_of_cons; [congruence|done].
Qed.

(** Induction two arguments at a time, as the loop consumes them. *)
Lemma args_pair_ind (P : list string -> Prop) :
  P [] -> (forall a, P [a]) ->
  (forall a b args, P args -> P (b :: args) -> P (a :: b :: args)) ->
  forall args, P args.
Proof.
  intros Hnil Hone Hstep args.
  assert (H : P args /\ forall a, P (a :: args)); [|by destruct H].
  induction args as [|b args [IH1 IH2]]; [by split|].
  split; [apply IH2|]. intros a. by apply Hstep.
Qed.

Lemma parseOutputFlag_from_flag valid value args format rest :
  parseOutputFlag_from ToLower valid ("-o" :: value :: args) format rest
  = if negb (formatFound (ToLower value) valid)
    then FlagErr (UnknownFormat (ToLower value) valid)
    else parseOutputFlag_from ToLower valid args (ToLower value) rest.
Proof. reflexivity. Qed.

Lemma parseOutputFlag_from_other valid arg args format rest :
  arg <> "-o" ->
  parseOutputFlag_from ToLower valid (arg :: args) format rest
  = parseOutputFlag_from ToLower valid args format (rest ++ [arg]).
Proof.
  intros Hne%String.eqb_neq. cbn [parseOutputFlag_from]. by rewrite Hne.
Qed.

Lemma parseOutputFlag_from_acc valid args format rest :
  parseOutputFlag_from ToLower valid args format rest
  = match parseOutputFlag_from ToLower valid args "table" [] with
    | FlagOk format' rest' =>
        FlagOk (if decide ("-o" ∈ args) then format' else format) (rest ++ rest')
    | FlagErr e => FlagErr e
    end.
Proof.
  revert format rest. induction args as [| a | a b args IH1 IH2] using args_pair_ind;
    intros format rest.
  - cbn. by rewrite app_nil_r.
  - destruct (decide (a = "-o")) as [->|Ha]; [done|].
    rewrite (parseOutputFlag_from_other valid a [] format rest Ha),
      (parseOutputFlag_from_other valid a [] "table" [] Ha). cbn.
    rewrite decide_False; [done|]. intros [?|?%elem_of_nil]%elem_of_cons; [congruence|done].
  - destruct (decide (a = "-o")) as [->|Ha].
    + repeat rewrite parseOutputFlag_from_flag.
      destruct (negb (formatFound (ToLower b) valid)); [done|].
      rewrite (IH1 (ToLower b) rest), (IH1 (ToLower b) []).
      destruct (parseOutputFlag_from ToLower valid args "table" []) as [f' r'|]; [|done].
      rewrite (decide_True (P := "-o" ∈ "-o" :: b :: args)) by left.
      cbn. by destruct (decide ("-o" ∈ args)).
    + rewrite (parseOutputFlag_from_other valid a (b :: args) format rest Ha),
        (parseOutputFlag_from_other valid a (b :: args) "table" [] Ha).
      rewrite (IH2 format (rest ++ [a])), (IH2 "table" ([] ++ [a])).
      destruct (parseOutputFlag_from ToLower valid (b :: args) "table" []) as [f' r'|];
        [|done].
      rewrite <- app_assoc. cbn [app]. f_equal.
      destruct (decide ("-o" ∈ b :: args)) as [Hin|Hnin].
      * by rewrite decide_True by (by right).
      * rewrite decide_False; [done|].
        intros [?|?]%elem_of_cons; [congruence|done].
Qed.

Lemma parseOutputFlag_from_app valid args more format rest format1 rest1 :
  parseOutputFlag_from ToLower valid args format rest = FlagOk format1 rest1 ->
  parseOutputFlag_from ToLower valid (args ++ more) format rest
  = parseOutputFlag_from ToLower valid more format1 rest1.
Proof.
  revert format rest. induction args as [| a | a b args IH1 IH2] using args_pair_ind;
    intros format rest.
  - cbn. by intros [= -> ->].
  - destruct (decide (a = "-o")) as [->|Ha]; [done|].
    cbn [app]. rewrite (parseOutputFlag_from_other valid a [] format rest Ha),
      (parseOutputFlag_from_other valid a more format rest Ha). cbn.
    by intros [= -> ->].
  - destruct (decide (a = "-o")) as [->|Ha].
    + cbn [app]. repeat rewrite parseOutputFlag_from_flag.
      destruct (negb (formatFound (ToLower b) valid)); [done|]. apply IH1.
    + change ((a :: b :: args) ++ more) with (a :: (b :: args) ++ more).
      rewrite (parseOutputFlag_from_other valid a (b :: args) format rest Ha),
        (parseOutputFlag_from_other valid a ((b :: args) ++ more) format rest Ha).
      apply IH2.
Qed.

Lemma parseOutputFlag_from_no_flag valid args format rest :
  "-o" ∉ args ->
  parseOutputFlag_from ToLower valid args format rest = FlagOk format (rest ++ args).
Proof.
  revert rest. induction args as [|a args IH]; intros rest Hnin.
  - cbn. by rewrite app_nil_r.
  - apply not_elem_of_cons in Hnin as [Hne Hnin].
    rewrite parseOutputFlag_from_other by done.
    rewrite (IH _ Hnin). by rewrite <- app_assoc.
Qed.

Lemma parseOutputFlag_from_inv valid args format rest format' rest' :
  parseOutputFlag_from ToLower valid args format rest = FlagOk format' rest' ->
  exists kept,
    rest' = rest ++ kept /\ sublist kept args /\ ("-o" ∉ kept)
    /\ (format' = format /\ kept = args
        \/ format' ∈ valid /\ exists value, value ∈ args /\ format' = ToLower value).
Proof.
  revert format rest. induction args as [| a | a b args IH1 IH2] using args_pair_ind;
    intros format rest.
  - cbn. intros [= <- <-]. exists []. rewrite app_nil_r.
    split_and!; [done|done|apply not_elem_of_nil|by left].
  - destruct (decide (a = "-o")) as [->|Ha]; [done|].
    rewrite parseOutputFlag_from_other by done. cbn. intros [= <- <-].
    exists [a]. split_and!; [done|done| |by left].
    intros [?|?%elem_of_nil]%elem_of_cons; [congruence|done].
  - destruct (decide (a = "-o")) as [->|Ha].
    + rewrite parseOutputFlag_from_flag.
      destruct (formatFound (ToLower b) valid) eqn:Hfound; cbn [negb]; [|done].
      apply formatFound_spec in Hfound.
      intros (kept & -> & Hsub & Hnin & Hfmt)%IH1.
      exists kept. split_and!; [done| |done|].
      * by do 2 apply sublist_cons.
      * right. destruct Hfmt as [[-> _]|(Hin & value & Hv & ->)].
        -- split; [done|]. exists b. split; [right; left|done].
        -- split; [done|]. exists value. split; [by do 2 right|done].
    + rewrite parseOutputFlag_from_other by done.
      intros (kept & -> & Hsub & Hnin & Hfmt)%IH2.
      exists (a :: kept). rewrite <- app_assoc. split_and!; [done| | |].
      * by apply sublist_skip.
      * intros [?|?]%elem_of_cons; [congruence|done].
      * destruct Hfmt as [[-> ->]|(Hin & value & Hv & ->)]; [by left|].
        right. split; [done|]. exists value. split; [by right|done].
Qed.

(** X21: without [-o] among the arguments, [parseOutputFlag] answers the
    format [table] and hands back all the arguments, unchanged and in
    order. *)
Theorem parseOutputFlag_no_flag args valid :
  "-o" ∉ args -> parseOutputFlag ToLower args valid = FlagOk "table" args.
Proof.
  intros Hnin. unfold parseOutputFlag.
  by rewrite (parseOutputFlag_from_no_flag valid args "table" [] Hnin).
Qed.

(** X22: when [parseOutputFlag] succeeds, the arguments it hands back are
    arguments it was given, in their order, and none of them is [-o]; and
    the format is either [table], no argument having been dropped, or the
    lower-cased form of some argument and one of the valid formats. *)
Theorem parseOutputFlag_ok args valid format rest :
  parseOutputFlag ToLower args valid = FlagOk format rest ->
  sublist rest args /\ ("-o" ∉ rest)
  /\ (format = "table" /\ rest = args
      \/ format ∈ valid /\ exists value, value ∈ args /\ format = ToLower value).
Proof.
  unfold parseOutputFlag.
  intros (kept & -> & Hsub & Hnin & Hfmt)%parseOutputFlag_from_inv. done.
Qed.

(** X23: arguments parse piecewise. When a first part parses, parsing it
    followed by a second part gives the arguments of both, those of the
    first part first, the format of the second part if [-o] occurs in it and
    of the first part otherwise, and the error of the second part if it has
    one: the last [-o] wins. *)
Theorem parseOutputFlag_app args more valid format1 rest1 :
  parseOutputFlag ToLower args valid = FlagOk format1 rest1 ->
  parseOutputFlag ToLower (args ++ more) valid
  = match parseOutputFlag ToLower more valid with
    | FlagOk format2 rest2 =>
        FlagOk (if decide ("-o" ∈ more) then format2 else format1) (rest1 ++ rest2)
    | FlagErr e => FlagErr e
    end.
Proof.
  unfold parseOutputFlag. intros H.
  rewrite (parseOutputFlag_from_app valid args more _ _ _ _ H).
  apply parseOutputFlag_from_acc.
Qed.

End Flags.

Lemma parseOutputFlag_no_flag_witness :
  parseOutputFlag asciiToLower ["2024-03-15"; "2024-03-20"] ["table"; "json"; "ics"]
  = FlagOk "table" ["2024-03-15"; "2024-03-20"].
Proof.
  apply parseOutputFlag_no_flag. intros Hin.
  repeat (apply elem_of_cons in Hin as [Hin|Hin]; [discriminate Hin|]).
  by apply elem_of_nil in Hin.
Defined.

Lemma parseOutputFlag_ok_witness :
  sublist ["week"] ["-o"; "JSON"; "week"] /\ ("-o" ∉ ["week"])
  /\ ("json" = "table" /\ ["week"] = ["-o"; "JSON"; "week"]
      \/ "json" ∈ ["table"; "json"; "ics"]
         /\ exists value, value ∈ ["-o"; "JSON"; "week"] /\ "json" = asciiToLower value).
Proof.
  apply (parseOutputFlag_ok asciiToLower ["-o"; "JSON"; "week"] ["table"; "json"; "ics"]).
  reflexivity.
Defined.

Lemma parseOutputFlag_app_witness :
  parseOutputFlag asciiToLower (["-o"; "json"; "today"] ++ ["-o"; "ics"]) ["table"; "json"; "ics"]
  = FlagOk "ics" ["today"].
Proof.
  rewrite (parseOutputFlag_app asciiToLower ["-o"; "json"; "today"] ["-o"; "ics"]
             ["table"; "json"; "ics"] "json" ["today"]); reflexivity.
Defined.

Section Completion.
Context {Bytes : Type} {registry : Registry Bytes}.
Variable ToLower : string -> string.
Implicit Types (fs : FS Bytes) (sources : list Source).

Lemma completeNames_sublist prefix sources :
  sublist (completeNames ToLower prefix sources) (map Name sources).
Proof.
  induction sources as [|s rest IH]; cbn; [done|].
  destruct (_ || _); [by apply sublist_skip|by apply sublist_cons].
Qed.

Lemma completeNames_empty sources :
  completeNames ToLower EmptyString sources = map Name sources.
Proof. induction sources as [|s rest IH]; cbn; [done|]. by rewrite IH. Qed.

Lemma prefix_refl (s : string) : String.prefix s s = true.
Proof.
  induction s as [|c r IH]; cbn; [done|].
  destruct (ascii_dec c c); [done|congruence].
Qed.

Lemma completeNames_elem_of prefix sources (name : string) :
  name ∈ completeNames ToLower prefix sources
  <-> exists s, s ∈ sources /\ Name s = name
                /\ (prefix = EmptyString \/ String.prefix prefix (ToLower name) = true).
Proof.
  induction sources as [|s rest IH]; cbn [completeNames].
  - split; [by intros ?%elem_of_nil|]. by intros (? & ?%elem_of_nil & _).
  - assert (Hcond : String.eqb prefix EmptyString || String.prefix prefix (ToLower (Name s))
                    = true
                    <-> prefix = EmptyString \/ String.prefix prefix (ToLower (Name s)) = true).
    { rewrite orb_true_iff. by rewrite String.eqb_eq. }
    destruct (_ || _).
    + rewrite elem_of_cons, IH. split.
      * intros [->|(s' & ? & ? & ?)].
        -- exists s. split_and!; [left|done|by apply Hcond].
        -- exists s'. split_and!; [by right|done..].
      * intros (s' & [->|?]%elem_of_cons & Hn & Hp); [by left|].
        right. by exists s'.
    + rewrite IH. split.
      * intros (s' & ? & ? & ?). exists s'. split_and!; [by right|done..].
      * intros (s' & [->|?]%elem_of_cons & <- & Hp); [|by exists s'].
        apply Hcond in Hp. done.
Qed.

(** X24: the names [Complete] offers are names of configured sources, in
    registry order; all of them when nothing has been typed; and a source
    whose name equals the typed text up to case is always among them. With
    an unreadable registry nothing is offered. *)
Theorem Complete_names fs (args : list string) sources :
  LoadSources fs = Ok sources ->
  sublist (Complete ToLower fs args) (map Name sources)
  /\ (args = [] -> Complete ToLower fs args = map Name sources)
  /\ (forall arg more s, args = arg :: more -> s ∈ sources ->
        ToLower (Name s) = ToLower arg -> Name s ∈ Complete ToLower fs args).
Proof.
  intros Hl. unfold Complete. rewrite Hl. split_and!.
  - apply completeNames_sublist.
  - intros ->. apply completeNames_empty.
  - intros arg more s -> Hs Heq. apply completeNames_elem_of.
    exists s. split_and!; [done..|]. right. rewrite Heq. apply prefix_refl.
Qed.

End Completion.

Lemma Complete_names_witness :
  sublist (@Complete Doc refRegistry asciiToLower refFS ["WO"]) (map Name refSources)
  /\ @Complete Doc refRegistry asciiToLower refFS ["WO"] = ["work"].
Proof.
  split; [|reflexivity].
  apply (@Complete_names Doc refRegistry asciiToLower refFS ["WO"] refSources). reflexivity.
Defined.

(** ** Files that are no records *)

Lemma ascii_compare_N (a b : ascii) :
  match Ascii.compare a b with
  | Eq => a = b
  | Lt => (N_of_ascii a < N_of_ascii b)%N
  | Gt => (N_of_ascii b < N_of_ascii a)%N
  end.
Proof.
  destruct (Ascii.compare a b) eqn:H.
  - by apply Ascii.compare_eq_iff.
  - by apply N.compare_lt_iff.
  - by apply N.compare_gt_iff.
Qed.

Lemma string_leb_trans (s1 s2 s3 : string) :
  String.leb s1 s2 = true -> String.leb s2 s3 = true -> String.leb s1 s3 = true.
Proof.
  unfold String.leb. revert s2 s3.
  induction s1 as [|c1 r1 IH]; intros [|c2 r2] [|c3 r3]; cbn; try done.
  pose proof (ascii_compare_N c1 c2) as H12.
  pose proof (ascii_compare_N c2 c3) as H23.
  pose proof (ascii_compare_N c1 c3) as H13.
  destruct (Ascii.compare c1 c2), (Ascii.compare c2 c3), (Ascii.compare c1 c3);
    try done; subst; try lia.
  apply IH.
Qed.

Lemma name_le_trans : Transitive name_le.
Proof. intros a b c. apply string_leb_trans. Qed.

Lemma name_le_antisym : AntiSymm (=) name_le.
Proof. intros a b. apply String.leb_antisym. Qed.

Lemma name_le_total : Total name_le.
Proof. intros a b. apply String.leb_total. Qed.

Lemma StronglySorted_list_filter {A} (R : relation A) (P : A -> Prop)
    `{forall x, Decision (P x)} (l : list A) :
  StronglySorted R l -> StronglySorted R (filter P l).
Proof.
  induction 1 as [|x l Hl IH Hx]; [constructor|].
  rewrite filter_cons. destruct (decide (P x)); [|done].
  constructor; [done|].
  rewrite Forall_forall in Hx. apply Forall_forall.
  intros y [_ Hy]%list_elem_of_filter. by apply Hx.
Qed.

Lemma list_filter_all {A} (P : A -> Prop) `{forall x, Decision (P x)} (l : list A) :
  (forall x, x ∈ l -> P x) -> filter P l = l.
Proof.
  induction l as [|x l IH]; intros Hall; [done|].
  rewrite filter_cons_True by (apply Hall; left).
  f_equal. apply IH. intros y Hy. apply Hall. by right.
Qed.

Lemma flat_map_filter_nil {A B} `{EqDecision A} (g : A -> list B) (k : A) (l : list A) :
  g k = [] -> flat_map g l = flat_map g (filter (fun x => x <> k) l).
Proof.
  intros Hk. induction l as [|x l IH]; [done|].
  rewrite filter_cons. cbn. destruct (decide (x <> k)) as [Hne|Heq].
  - cbn. by rewrite IH.
  - apply dec_stable in Heq as ->. by rewrite Hk, IH.
Qed.

Section Junk.
Context {Bytes : Type} {codec : ical.Codec Bytes} {registry : Registry Bytes}
        {zoneinfo : time.Zoneinfo}.
Implicit Types (fs : FS Bytes) (s : Source) (d : gmap string Bytes).

Lemma sorted_names_insert d (k : string) (v : Bytes) :
  d !! k = None ->
  filter (fun x => x <> k) (merge_sort name_le (map fst (map_to_list (<[k := v]> d))))
  = merge_sort name_le (map fst (map_to_list d)).
Proof.
  intros Hk. apply (@StronglySorted_unique _ name_le name_le_antisym).
  - apply StronglySorted_list_filter.
    apply (@StronglySorted_merge_sort _ name_le _ name_le_trans name_le_total).
  - apply (@StronglySorted_merge_sort _ name_le _ name_le_trans name_le_total).
  - rewrite !merge_sort_Permutation, (map_to_list_insert d k v Hk). cbn [map fst].
    rewrite filter_cons_False by (by intros []).
    rewrite list_filter_all; [done|].
    intros x [[k' v'] [Hx Hin]]%list_elem_of_fmap Hxk. cbn in Hx. subst.
    apply elem_of_map_to_list in Hin. congruence.
Qed.

Lemma entryEvents_same_dir fs fs' (name entry : string) :
  os_ReadFile fs' name entry = os_ReadFile fs name entry ->
  entryEvents fs' name entry = entryEvents fs name entry.
Proof. intros H. unfold entryEvents, readEvent. by rewrite H. Qed.

Lemma sourceEvents_same_dir fs fs' s :
  calendar_dirs fs' !! Name s = calendar_dirs fs !! Name s ->
  sourceEvents fs' s = sourceEvents fs s.
Proof.
  intros H. unfold sourceEvents, loadCalendarEvents, os_ReadDir. rewrite H.
  destruct (calendar_dirs fs !! Name s) as [d|] eqn:Hd; [|done].
  rewrite !(fold_left_app_flat_map _ (entryEvents fs' (Name s)))
    by (intros; apply loadEntry_app).
  rewrite !(fold_left_app_flat_map _ (entryEvents fs (Name s)))
    by (intros; apply loadEntry_app).
  cbn. apply flat_map_ext. intros entry.
  apply entryEvents_same_dir. unfold os_ReadFile. by rewrite H, Hd.
Qed.

(** X25: a file that is no record does not disturb the listing. Putting
    into a source's directory a new file whose name does not end in [.ics],
    or that does not decode, or that decodes to a document without event,
    leaves the answer of [ListEvents] exactly as it was. *)
Theorem ListEvents_ignores_junk fs (name junk : string) d (data : Bytes)
    (from to : time.Time) :
  calendar_dirs fs !! name = Some d -> d !! junk = None ->
  (HasSuffix junk ".ics" = false
   \/ ical.Decode data = None
   \/ exists cal, ical.Decode data = Some cal /\ ical.Events cal = []) ->
  ListEvents (mkFS (sources_file fs) (<[name := <[junk := data]> d]> (calendar_dirs fs)))
             from to
  = ListEvents fs from to.
Proof.
  intros Hd Hjunk Hbad. set (fs' := mkFS _ _).
  assert (Hl : LoadSources fs' = LoadSources fs) by done.
  unfold ListEvents. rewrite Hl. destruct (LoadSources fs) as [sources|]; [|done].
  rewrite !collected_allEvents. do 3 f_equal.
  unfold allEvents. apply flat_map_ext. intros s.
  destruct (decide (Name s = name)) as [Hs|Hs].
  2:{ apply sourceEvents_same_dir. cbn. by rewrite lookup_insert_ne. }
  unfold sourceEvents, loadCalendarEvents, os_ReadDir. rewrite Hs. cbn [calendar_dirs fs'].
  rewrite lookup_insert_eq, Hd.
  rewrite (fold_left_app_flat_map _ (entryEvents fs' name))
    by (intros; apply loadEntry_app).
  rewrite (fold_left_app_flat_map _ (entryEvents fs name))
    by (intros; apply loadEntry_app).
  cbn [app].
  assert (Hnil : entryEvents fs' name junk = []).
  { unfold entryEvents, readEvent, os_ReadFile. cbn [calendar_dirs fs'].
    rewrite !lookup_insert_eq.
    destruct Hbad as [->|[->|(cal & -> & ->)]]; [done| |].
    - by destruct (negb _).
    - by destruct (negb _). }
  rewrite (flat_map_filter_nil (entryEvents fs' name) junk _ Hnil).
  rewrite (sorted_names_insert d junk data Hjunk).
  apply flat_map_ext. intros entry.
  destruct (decide (entry = junk)) as [->|Hne].
  - rewrite Hnil. unfold entryEvents, readEvent, os_ReadFile. rewrite Hd, Hjunk.
    by destruct (negb _).
  - apply entryEvents_same_dir. unfold os_ReadFile. cbn [calendar_dirs fs'].
    rewrite lookup_insert_eq, Hd. by rewrite lookup_insert_ne.
Qed.

End Junk.

Lemma ListEvents_ignores_junk_witness :
  @ListEvents Doc refCodec refRegistry refZoneinfo
    (mkFS (sources_file refFS)
          (<["home" := <["broken.ics" := DocOther "BEGIN:VCALENDAR"]>
                         {[ "holiday_at_example.com.ics" := DocCalendar (refCalendar [holiday]) ]}]>
             (calendar_dirs refFS)))
    refFrom refTo
  = @ListEvents Doc refCodec refRegistry refZoneinfo refFS refFrom refTo.
Proof.
  apply (@ListEvents_ignores_junk Doc refCodec refRegistry refZoneinfo refFS "home"
           "broken.ics").
  - reflexivity.
  - reflexivity.
  - right. left. reflexivity.
Defined.


(** ** The limits of the host at work *)

(** A source whose name is longer than a path component can be: the
    directory cannot be made, and the sync returns that error with the file
    system as it was. *)
Example syncSource_name_too_long :
  @syncSource Doc refCodec (Response 200 feedBoth) emptyFS
    (mkSource (bytes 300 "w") "https://example.com/work.ics")
  = (emptyFS, [], Some IOError).
Proof. vm_compute. reflexivity. Qed.

(** An event whose uid makes too long a file name is skipped and not
    counted, the other event of the feed is written. *)
Example syncSource_uid_too_long :
  (@syncSource Doc refCodec
     (Response 200 (DocCalendar (refCalendar
        [refEvent (bytes 300 "u") "Long" (dtstartDate "20240315"); review])))
     refFS workSource).1.2
  = [LSynced 1].
Proof. vm_compute. reflexivity. Qed.
